(** * The MVCC staging table of go-nebulas (common/mvccdb/staging_table.go)

    A shallow embedding of [StagingTable] and of its operations, followed by
    the properties of the versioning and merge protocol.

    Modelling decisions.
    - A [*VersionizedValueItem] is held by exactly one map slot: every slot
      is filled with a freshly allocated item ([NewDefaultVersionizedValueItem],
      [IncrVersionizedValueItem], [CloneForFinal]).  A slot therefore stores
      the item itself, and a write through the pointer a getter handed out
      is a write to the slot [(tid, Hex key)].
    - A [stagingValuesMap] handle is a reference to a map object.  The handle
      returned by [getVersionizedValuesOfTid] is identified by the [tid] it
      was asked for: [nil] denotes the final map itself, any other [tid] the
      map stored in the directory under [tid].  Reads ([deref]) and writes
      ([assign]) go through the table, so the aliasing of the [nil] handle
      with [finalVersionizedValue] is kept.
    - Go's [int] is taken as the 64-bit two's complement integer; [+] wraps.
    - A [[]byte] is a list of bytes; the nil slice and the empty slice are
      both [[]] (the code never tells them apart).
    - The two mutexes are not modelled: the operations run one at a time. *)

From Stdlib Require Import ZArith Lia Ascii String.
From stdpp Require Import base gmap strings list fin_maps.

Local Open Scope Z_scope.

(** ** Go integers *)

Definition MaxInt : Z := 2 ^ 63 - 1.
Definition MinInt : Z := - 2 ^ 63.

Definition int_wrap (z : Z) : Z := (z + 2 ^ 63) mod 2 ^ 64 - 2 ^ 63.

(** [a + b] on [int]. *)
Definition int_add (a b : Z) : Z := int_wrap (a + b).

(** ** Byte slices *)

Abbreviation bytes := (list Byte.byte).

(** [bytes.Compare]: lexicographic order, -1, 0 or +1. *)
Fixpoint bytes_Compare (a b : bytes) : Z :=
  match a, b with
  | [], [] => 0
  | [], _ :: _ => -1
  | _ :: _, [] => 1
  | x :: a', y :: b' =>
      match N.compare (Byte.to_N x) (Byte.to_N y) with
      | Lt => -1
      | Gt => 1
      | Eq => bytes_Compare a' b'
      end
  end.

(** Modelled from the spec: [byteutils.Hex] is not among the sources at hand.
    The spec calls it the conversion of a key to its canonical textual form;
    by its name it is the lower-case hexadecimal rendering, two digits per
    byte. *)
Definition hexDigit (n : N) : ascii :=
  match n with
  | 0%N => "0" | 1%N => "1" | 2%N => "2" | 3%N => "3"
  | 4%N => "4" | 5%N => "5" | 6%N => "6" | 7%N => "7"
  | 8%N => "8" | 9%N => "9" | 10%N => "a" | 11%N => "b"
  | 12%N => "c" | 13%N => "d" | 14%N => "e" | _ => "f"
  end%char.

Fixpoint Hex (data : bytes) : string :=
  match data with
  | [] => EmptyString
  | x :: rest =>
      String (hexDigit (Byte.to_N x / 16))
        (String (hexDigit (Byte.to_N x mod 16)) (Hex rest))
  end.

(** ** Errors *)

(** Go [error] values.  [ErrKeyNotFound] is [storage.ErrKeyNotFound];
    [ErrOther] stands for any other error value a store may hand back. *)
Inductive error :=
  | ErrKeyNotFound
  | ErrStagingTableKeyConfliction
  | ErrOther (msg : string).

#[global] Instance error_eq_dec : EqDecision error.
Proof. solve_decision. Defined.

(** The [(x, err)] return convention. *)
Inductive result (A : Type) :=
  | ok (a : A)
  | fail (e : error).
Arguments ok {A} a.
Arguments fail {A} e.

Section StagingTable.

Context {T : Type} `{Countable T}.

(** A transaction identifier is an [interface{}]: [nil] ([None]) or a
    comparable value ([Some x]). *)
Record VersionizedValueItem := mkItem {
  tid : option T;
  key : bytes;
  val : bytes;
  old : Z;
  new : Z;
  deleted : bool;
  dirty : bool
}.

(** Modelled from the spec: [storage.Storage] is an interface declared
    outside the sources at hand.  Its [Get] returns a value together with
    an error that is [nil], [ErrKeyNotFound], or any other failure. *)
Definition Storage : Type := bytes → bytes * option error.

Record StagingTable := mkTable {
  storage : Storage;
  allVersionizedValues : gmap (option T) (gmap string VersionizedValueItem);
  finalVersionizedValue : gmap string VersionizedValueItem
}.

Definition NewStagingTable (storage : Storage) : StagingTable :=
  {| storage := storage;
     allVersionizedValues := ∅;
     finalVersionizedValue := ∅ |}.

(** *** Items *)

Definition isDefault (value : VersionizedValueItem) : bool :=
  match tid value with None => true | Some _ => false end
  && (new value =? 0) && (old value =? 0).

Definition NewDefaultVersionizedValueItem (key val : bytes)
  : VersionizedValueItem :=
  {| tid := None;
     key := key;
     val := val;
     old := 0;
     new := 0;
     deleted := false;
     dirty := false |}.

Definition IncrVersionizedValueItem (tid : option T)
    (oldValue : VersionizedValueItem) : VersionizedValueItem :=
  {| tid := tid;
     key := key oldValue;
     val := val oldValue;
     old := new oldValue;
     new := int_add (new oldValue) 1;
     deleted := deleted oldValue;
     dirty := false |}.

Definition CloneForFinal (value : VersionizedValueItem)
  : VersionizedValueItem :=
  {| tid := tid value;
     key := key value;
     val := val value;
     old := old value;
     new := new value;
     deleted := deleted value;
     dirty := true |}.

(** Field assignments [value.val = v], [value.deleted = b],
    [value.dirty = b], and the read of [value.val]. *)
Definition valOf (value : VersionizedValueItem) : bytes := val value.

Definition set_val (v : bytes) (value : VersionizedValueItem)
  : VersionizedValueItem :=
  {| tid := tid value; key := key value; val := v; old := old value;
     new := new value; deleted := deleted value; dirty := dirty value |}.

Definition set_deleted (b : bool) (value : VersionizedValueItem)
  : VersionizedValueItem :=
  {| tid := tid value; key := key value; val := val value; old := old value;
     new := new value; deleted := b; dirty := dirty value |}.

Definition set_dirty (b : bool) (value : VersionizedValueItem)
  : VersionizedValueItem :=
  {| tid := tid value; key := key value; val := val value; old := old value;
     new := new value; deleted := deleted value; dirty := b |}.

(** *** Map handles *)

(** The map a handle obtained for [tid] denotes. *)
Definition deref (tid : option T) (tbl : StagingTable)
  : gmap string VersionizedValueItem :=
  match tid with
  | None => finalVersionizedValue tbl
  | Some _ => default ∅ (allVersionizedValues tbl !! tid)
  end.

(** [m[keyStr] = value] on the map the handle for [tid] denotes. *)
Definition assign (tid : option T) (keyStr : string)
    (value : VersionizedValueItem) (tbl : StagingTable) : StagingTable :=
  match tid with
  | None =>
      {| storage := storage tbl;
         allVersionizedValues := allVersionizedValues tbl;
         finalVersionizedValue := <[keyStr := value]> (finalVersionizedValue tbl) |}
  | Some _ =>
      {| storage := storage tbl;
         allVersionizedValues :=
           <[tid := <[keyStr := value]> (deref tid tbl)]> (allVersionizedValues tbl);
         finalVersionizedValue := finalVersionizedValue tbl |}
  end.

(** After the call the handle for [tid] is valid: a missing workspace has
    been created empty. *)
Definition getVersionizedValuesOfTid (tid : option T) (tbl : StagingTable)
  : StagingTable :=
  match tid with
  | None => tbl
  | Some _ =>
      match allVersionizedValues tbl !! tid with
      | Some _ => tbl
      | None =>
          {| storage := storage tbl;
             allVersionizedValues := <[tid := ∅]> (allVersionizedValues tbl);
             finalVersionizedValue := finalVersionizedValue tbl |}
      end
  end.

Definition getAndIncrValueFromFinalVersionValue (tid : option T)
    (keyStr : string) (key : bytes) (tbl : StagingTable)
  : result VersionizedValueItem * StagingTable :=
  match finalVersionizedValue tbl !! keyStr with
  | Some latestValue => (ok (IncrVersionizedValueItem tid latestValue), tbl)
  | None =>
      let '(val, err) := storage tbl key in
      match err with
      | Some e =>
          if decide (e = ErrKeyNotFound) then
            let latestValue := NewDefaultVersionizedValueItem key val in
            (ok (IncrVersionizedValueItem tid latestValue),
             assign None keyStr latestValue tbl)
          else (fail e, tbl)
      | None =>
          let latestValue := NewDefaultVersionizedValueItem key val in
          (ok (IncrVersionizedValueItem tid latestValue),
           assign None keyStr latestValue tbl)
      end
  end.

Definition getVersionizedValueForUpdate (tid : option T) (key : bytes)
    (tbl : StagingTable) : result VersionizedValueItem * StagingTable :=
  let keyStr := Hex key in
  let tbl1 := getVersionizedValuesOfTid tid tbl in
  match deref tid tbl1 !! keyStr with
  | Some value => (ok value, tbl1)
  | None =>
      match getAndIncrValueFromFinalVersionValue tid keyStr key tbl1 with
      | (fail err, tbl2) => (fail err, tbl2)
      | (ok value, tbl2) => (ok value, assign tid keyStr value tbl2)
      end
  end.

(** *** The four accessors and [Purge] *)

Definition Get (tid : option T) (key : bytes) (tbl : StagingTable)
  : result VersionizedValueItem * StagingTable :=
  getVersionizedValueForUpdate tid key tbl.

Definition Put (tid : option T) (key val : bytes) (tbl : StagingTable)
  : result VersionizedValueItem * StagingTable :=
  match getVersionizedValueForUpdate tid key tbl with
  | (fail err, tbl1) => (fail err, tbl1)
  | (ok value, tbl1) =>
      let value :=
        set_dirty (dirty value || negb (bytes_Compare (valOf value) val =? 0))
          value in
      let value := set_val val value in
      (ok value, assign tid (Hex key) value tbl1)
  end.

(** [Set] ([Set] itself is a reserved word here). *)
Definition Set_ (tid : option T) (key val : bytes) (deleted dirty : bool)
    (tbl : StagingTable) : result VersionizedValueItem * StagingTable :=
  match getVersionizedValueForUpdate tid key tbl with
  | (fail err, tbl1) => (fail err, tbl1)
  | (ok value, tbl1) =>
      let value := set_val val value in
      let value := set_deleted deleted value in
      let value := set_dirty dirty value in
      (ok value, assign tid (Hex key) value tbl1)
  end.

Definition Del (tid : option T) (key : bytes) (tbl : StagingTable)
  : result VersionizedValueItem * StagingTable :=
  match getVersionizedValueForUpdate tid key tbl with
  | (fail err, tbl1) => (fail err, tbl1)
  | (ok value, tbl1) =>
      let value := set_deleted true value in
      let value := set_dirty true value in
      (ok value, assign tid (Hex key) value tbl1)
  end.

Definition Purge (tid : option T) (tbl : StagingTable) : StagingTable :=
  match tid with
  | None => tbl
  | Some _ =>
      {| storage := storage tbl;
         allVersionizedValues := delete tid (allVersionizedValues tbl);
         finalVersionizedValue := finalVersionizedValue tbl |}
  end.

(** *** Merge *)

(** The first loop of [MergeToFinal] over the entries of the transaction's
    map, in the order [kvs] lists them (Go leaves the order unspecified).
    [None] is the run-time panic of [finalValueItem.new] on a nil pointer,
    when the final map has no entry under [keyStr]. *)
Fixpoint checkVersion (finalValues : gmap string VersionizedValueItem)
    (kvs : list (string * VersionizedValueItem))
    (dependentTids : gset (option T)) (conflictKeys : gmap string (option T))
  : option (gset (option T) * gmap string (option T)) :=
  match kvs with
  | [] => Some (dependentTids, conflictKeys)
  | (keyStr, tidValueItem) :: rest =>
      match finalValues !! keyStr with
      | None => None
      | Some finalValueItem =>
          if negb (old tidValueItem =? new finalValueItem) then
            checkVersion finalValues rest dependentTids
              (<[keyStr := tid finalValueItem]> conflictKeys)
          else if isDefault finalValueItem then
            checkVersion finalValues rest dependentTids conflictKeys
          else
            checkVersion finalValues rest
              ({[tid finalValueItem]} ∪ dependentTids) conflictKeys
      end
  end.

(** The second loop: publish the dirty entries. *)
Fixpoint mergeValues (kvs : list (string * VersionizedValueItem))
    (finalValues : gmap string VersionizedValueItem)
  : gmap string VersionizedValueItem :=
  match kvs with
  | [] => finalValues
  | (keyStr, tidValueItem) :: rest =>
      if negb (dirty tidValueItem) then mergeValues rest finalValues
      else mergeValues rest (<[keyStr := CloneForFinal tidValueItem]> finalValues)
  end.

(** [MergeToFinal]; [None] when the call panics.  The returned slice lists
    the keys of [dependentTids], each once, in no particular order. *)
Definition MergeToFinal (tid : option T) (tbl : StagingTable)
  : option (result (list (option T)) * StagingTable) :=
  let tbl1 := getVersionizedValuesOfTid tid tbl in
  let finalValues := finalVersionizedValue tbl1 in
  let tidValues := map_to_list (deref tid tbl1) in
  match checkVersion finalValues tidValues ∅ ∅ with
  | None => None
  | Some (dependentTids, conflictKeys) =>
      if (0 <? size conflictKeys)%nat then
        Some (fail ErrStagingTableKeyConfliction, tbl1)
      else
        let tids := elements dependentTids in
        Some (ok tids,
              {| storage := storage tbl1;
                 allVersionizedValues := allVersionizedValues tbl1;
                 finalVersionizedValue := mergeValues tidValues finalValues |})
  end.

(** *** Sequences of calls *)

Inductive Op :=
  | OpGet (tid : option T) (key : bytes)
  | OpPut (tid : option T) (key val : bytes)
  | OpSet (tid : option T) (key val : bytes) (deleted dirty : bool)
  | OpDel (tid : option T) (key : bytes)
  | OpPurge (tid : option T)
  | OpMergeToFinal (tid : option T).

(** The table after one call; [None] when the call panics. *)
Definition step (op : Op) (tbl : StagingTable) : option StagingTable :=
  match op with
  | OpGet tid key => Some (Get tid key tbl).2
  | OpPut tid key val => Some (Put tid key val tbl).2
  | OpSet tid key val deleted dirty => Some (Set_ tid key val deleted dirty tbl).2
  | OpDel tid key => Some (Del tid key tbl).2
  | OpPurge tid => Some (Purge tid tbl)
  | OpMergeToFinal tid => snd <$> MergeToFinal tid tbl
  end.

Fixpoint run (ops : list Op) (tbl : StagingTable) : option StagingTable :=
  match ops with
  | [] => Some tbl
  | op :: rest =>
      match step op tbl with
      | None => None
      | Some tbl1 => run rest tbl1
      end
  end.

(** *** Vocabulary of the properties *)

(** The final map's version of a key; [0] while the key has no final entry
    (the version its default entry will carry). *)
Definition finalVersion (tbl : StagingTable) (keyStr : string) : Z :=
  match finalVersionizedValue tbl !! keyStr with
  | Some finalValueItem => new finalValueItem
  | None => 0
  end.

(** A key of [tid]'s map whose recorded base version is stale. *)
Definition conflicting (tid : option T) (tbl : StagingTable) : Prop :=
  ∃ keyStr value finalValueItem,
    deref tid tbl !! keyStr = Some value
    ∧ finalVersionizedValue tbl !! keyStr = Some finalValueItem
    ∧ old value ≠ new finalValueItem.

(** Every key of [tid]'s map has a final entry. *)
Definition covered (tid : option T) (tbl : StagingTable) : Prop :=
  ∀ keyStr value, deref tid tbl !! keyStr = Some value →
    is_Some (finalVersionizedValue tbl !! keyStr).

(** Same owner, key and version pair. *)
Definition sameVersion (value1 value2 : VersionizedValueItem) : Prop :=
  tid value1 = tid value2 ∧ key value1 = key value2
  ∧ old value1 = old value2 ∧ new value1 = new value2.

(** The store answered with a value or with "not found". *)
Definition storeOk (err : option error) : Prop :=
  err = None ∨ err = Some ErrKeyNotFound.

(** The shape shared by [Put], [Set] and [Del]: fetch or derive the entry,
    then overwrite fields of it in place. *)
Definition update (f : VersionizedValueItem → VersionizedValueItem)
    (tid : option T) (key : bytes) (tbl : StagingTable)
  : result VersionizedValueItem * StagingTable :=
  match getVersionizedValueForUpdate tid key tbl with
  | (fail err, tbl1) => (fail err, tbl1)
  | (ok value, tbl1) => (ok (f value), assign tid (Hex key) (f value) tbl1)
  end.

Definition opTid (op : Op) : option T :=
  match op with
  | OpGet tid _ | OpPut tid _ _ | OpSet tid _ _ _ _ | OpDel tid _
  | OpPurge tid | OpMergeToFinal tid => tid
  end.

Definition opKey (op : Op) : option bytes :=
  match op with
  | OpGet _ key | OpPut _ key _ | OpSet _ key _ _ _ | OpDel _ key => Some key
  | OpPurge _ | OpMergeToFinal _ => None
  end.

(** The four ways a call of [getVersionizedValueForUpdate] can go. *)
Inductive fetched (t : option T) (key : bytes) (tbl : StagingTable)
  : result VersionizedValueItem * StagingTable → Prop :=
  | fetched_present value :
      deref t tbl !! Hex key = Some value →
      fetched t key tbl (ok value, tbl)
  | fetched_derived finalValueItem :
      deref t tbl !! Hex key = None →
      finalVersionizedValue tbl !! Hex key = Some finalValueItem →
      fetched t key tbl
        (ok (IncrVersionizedValueItem t finalValueItem),
         assign t (Hex key) (IncrVersionizedValueItem t finalValueItem)
           (getVersionizedValuesOfTid t tbl))
  | fetched_loaded v err :
      deref t tbl !! Hex key = None →
      finalVersionizedValue tbl !! Hex key = None →
      storage tbl key = (v, err) → storeOk err →
      fetched t key tbl
        (ok (IncrVersionizedValueItem t (NewDefaultVersionizedValueItem key v)),
         assign t (Hex key)
           (IncrVersionizedValueItem t (NewDefaultVersionizedValueItem key v))
           (assign None (Hex key) (NewDefaultVersionizedValueItem key v)
              (getVersionizedValuesOfTid t tbl)))
  | fetched_failed v err :
      deref t tbl !! Hex key = None →
      finalVersionizedValue tbl !! Hex key = None →
      storage tbl key = (v, Some err) → err ≠ ErrKeyNotFound →
      fetched t key tbl (fail err, getVersionizedValuesOfTid t tbl).

(** What a call given the [nil] identifier does for [key]: it leaves the
    directory and every other final entry alone; a final entry that exists
    keeps its owner, key and version pair and is the entry handed back; a
    missing one is loaded from the store and replaced by its incremented
    copy, unless the store fails. *)
Definition actsOnFinal (key : bytes) (tbl : StagingTable)
    (r : result VersionizedValueItem * StagingTable) : Prop :=
  storage r.2 = storage tbl
  ∧ allVersionizedValues r.2 = allVersionizedValues tbl
  ∧ (∀ keyStr, keyStr ≠ Hex key →
       finalVersionizedValue r.2 !! keyStr = finalVersionizedValue tbl !! keyStr)
  ∧ match finalVersionizedValue tbl !! Hex key with
    | Some finalValueItem =>
        ∃ value, r.1 = ok value
          ∧ finalVersionizedValue r.2 !! Hex key = Some value
          ∧ sameVersion value finalValueItem
    | None =>
        (∃ v err value, storage tbl key = (v, err) ∧ storeOk err
           ∧ r.1 = ok value
           ∧ finalVersionizedValue r.2 !! Hex key = Some value
           ∧ sameVersion value
               (IncrVersionizedValueItem None
                  (NewDefaultVersionizedValueItem key v)))
        ∨ (∃ v err, storage tbl key = (v, Some err) ∧ err ≠ ErrKeyNotFound
             ∧ r = (fail err, tbl))
    end.

(** What holds of every table the operations can produce. *)
Record Inv (tbl : StagingTable) : Prop := mkInv {
  inv_cover : ∀ tid tidValues keyStr value,
    allVersionizedValues tbl !! tid = Some tidValues →
    tidValues !! keyStr = Some value →
    is_Some (finalVersionizedValue tbl !! keyStr);
  inv_incr : ∀ tid tidValues keyStr value,
    allVersionizedValues tbl !! tid = Some tidValues →
    tidValues !! keyStr = Some value →
    new value = int_add (old value) 1;
  inv_range : ∀ keyStr finalValueItem,
    finalVersionizedValue tbl !! keyStr = Some finalValueItem →
    MinInt ≤ new finalValueItem ≤ MaxInt
}.

End StagingTable.

Arguments VersionizedValueItem : clear implicits.
Arguments StagingTable T {_ _}.
Arguments Op : clear implicits.

(** A store that holds nothing, and one that always fails. *)
Definition emptyStore : bytes → bytes * option error :=
  λ _, ([], Some ErrKeyNotFound).
Definition brokenStore : bytes → bytes * option error :=
  λ _, ([], Some (ErrOther "io")).

Definition kA : bytes := [Byte.x61].
Definition vOne : bytes := [Byte.x76; Byte.x31].

(** Transaction 1 reads key "a"; transaction 2 writes it and merges. *)
Definition opsAB : list (Op nat) :=
  [OpGet (Some 1%nat) kA; OpPut (Some 2%nat) kA vOne;
   OpMergeToFinal (Some 2%nat)].

Definition tblAB : StagingTable nat :=
  default (NewStagingTable emptyStore) (run opsAB (NewStagingTable emptyStore)).

(** Transaction 2 has written key "a" and not merged yet. *)
Definition opsPut : list (Op nat) := [OpPut (Some 2%nat) kA vOne].

Definition tblPut : StagingTable nat :=
  default (NewStagingTable emptyStore)
    (run opsPut (NewStagingTable emptyStore)).

Definition tblMerged : StagingTable nat :=
  default (NewStagingTable emptyStore)
    (run (opsPut ++ [OpMergeToFinal (Some 2%nat)])
       (NewStagingTable emptyStore)).

(** *** Further concrete tables *)

Definition tblNew : StagingTable nat := NewStagingTable emptyStore.

Definition kB : bytes := [Byte.x62].

(** The table a merge leaves ([tbl] itself should the call panic). *)
Definition afterMerge (t : option nat) (tbl : StagingTable nat)
  : StagingTable nat :=
  match MergeToFinal t tbl with
  | Some (_, tbl1) => tbl1
  | None => tbl
  end.

(** Transaction 1 has read key "a", transaction 2 has written it; nothing
    is merged yet. *)
Definition tblBoth : StagingTable nat :=
  default tblNew
    (run [OpGet (Some 1%nat) kA; OpPut (Some 2%nat) kA vOne] tblNew).

(** Transaction 1 has written key "a", transaction 2 key "b". *)
Definition tblDisjoint : StagingTable nat :=
  default tblNew
    (run [OpPut (Some 1%nat) kA vOne; OpPut (Some 2%nat) kB vOne] tblNew).


(** The entry of key "a" as transaction 2 wrote it. *)
Definition itemPut : VersionizedValueItem nat :=
  {| tid := Some 2%nat; key := kA; val := vOne; old := 0; new := 1;
     deleted := false; dirty := true |}.

(** *** Further vocabulary *)

Section MoreVocabulary.

Context {T : Type} `{Countable T}.

(** The call an accessor operation stands for, with what it returns;
    [None] for [Purge] and [MergeToFinal], which are no accessors. *)
Definition accessor (op : Op T) (tbl : StagingTable T)
  : option (result (VersionizedValueItem T) * StagingTable T) :=
  match op with
  | OpGet tid key => Some (Get tid key tbl)
  | OpPut tid key val => Some (Put tid key val tbl)
  | OpSet tid key val deleted dirty => Some (Set_ tid key val deleted dirty tbl)
  | OpDel tid key => Some (Del tid key tbl)
  | OpPurge _ | OpMergeToFinal _ => None
  end.

(** The same maps over another store. *)
Definition withStorage (s : Storage) (tbl : StagingTable T) : StagingTable T :=
  {| storage := s;
     allVersionizedValues := allVersionizedValues tbl;
     finalVersionizedValue := finalVersionizedValue tbl |}.

(** The shape of the entries the operations keep: the directory has no map
    under nil; an entry of the map of a transaction is owned by that
    transaction, sits under the hexadecimal form of its key and has a new
    version one above its old version; a final entry sits under the
    hexadecimal form of its key and is either an unowned entry at versions
    0 and 0 or has a new version one above its old version. *)
Record WellFormed (tbl : StagingTable T) : Prop := mkWellFormed {
  wf_directory : allVersionizedValues tbl !! None = None;
  wf_tid : ∀ t tidValues keyStr value,
    allVersionizedValues tbl !! t = Some tidValues →
    tidValues !! keyStr = Some value →
    tid value = t ∧ Hex (key value) = keyStr
    ∧ new value = int_add (old value) 1;
  wf_final : ∀ keyStr finalValueItem,
    finalVersionizedValue tbl !! keyStr = Some finalValueItem →
    Hex (key finalValueItem) = keyStr
    ∧ ((tid finalValueItem = None ∧ old finalValueItem = 0
        ∧ new finalValueItem = 0)
       ∨ new finalValueItem = int_add (old finalValueItem) 1)
}.

(** The entry handed out has the shape its slot asks for. *)
Definition slotShape (t : option T) (keyStr : string)
    (value : VersionizedValueItem T) : Prop :=
  Hex (key value) = keyStr
  ∧ match t with
    | Some _ => tid value = t ∧ new value = int_add (old value) 1
    | None => (tid value = None ∧ old value = 0 ∧ new value = 0)
              ∨ new value = int_add (old value) 1
    end.

End MoreVocabulary.

(** * Properties *)

(** ** Integers and byte slices *)

Lemma int_add_1 (v : Z) : MinInt ≤ v < MaxInt → int_add v 1 = v + 1.
Proof.
  unfold int_add, int_wrap, MinInt, MaxInt. intros Hv.
  rewrite Z.mod_small; lia.
Qed.

Lemma int_add_range (a b : Z) : MinInt ≤ int_add a b ≤ MaxInt.
Proof.
  unfold int_add, int_wrap, MinInt, MaxInt.
  pose proof (Z.mod_pos_bound (a + b + 2 ^ 63) (2 ^ 64)). lia.
Qed.

Lemma Byte_to_N_inj (x y : Byte.byte) : Byte.to_N x = Byte.to_N y → x = y.
Proof.
  intros Hxy. apply (f_equal Byte.of_N) in Hxy.
  rewrite !Byte.of_to_N in Hxy. congruence.
Qed.

Lemma bytes_Compare_eq (a b : bytes) : bytes_Compare a b = 0 ↔ a = b.
Proof.
  revert b. induction a as [|x a IH]; intros [|y b]; simpl; try done.
  destruct (N.compare_spec (Byte.to_N x) (Byte.to_N y)) as [Hxy|Hxy|Hxy].
  - apply Byte_to_N_inj in Hxy as ->. rewrite IH. split; congruence.
  - split; [done|]. intros [= -> _]. lia.
  - split; [done|]. intros [= -> _]. lia.
Qed.

Section Properties.

Context {T : Type} `{Countable T}.

Implicit Types (tbl : StagingTable T) (value : VersionizedValueItem T).
Implicit Types (t : option T) (key : bytes) (keyStr : string).

(** ** Map handles *)

Lemma final_getVersionizedValuesOfTid t tbl :
  finalVersionizedValue (getVersionizedValuesOfTid t tbl)
  = finalVersionizedValue tbl.
Proof. destruct t; simpl; [|done]. by case_match. Qed.

Lemma storage_getVersionizedValuesOfTid t tbl :
  storage (getVersionizedValuesOfTid t tbl) = storage tbl.
Proof. destruct t; simpl; [|done]. by case_match. Qed.

Lemma deref_getVersionizedValuesOfTid t tbl :
  deref t (getVersionizedValuesOfTid t tbl) = deref t tbl.
Proof.
  destruct t as [t|]; simpl; [|done].
  destruct (allVersionizedValues tbl !! Some t) eqn:E; simpl.
  - by rewrite E.
  - by rewrite lookup_insert_eq.
Qed.

Lemma getVersionizedValuesOfTid_id t tbl keyStr value :
  deref t tbl !! keyStr = Some value →
  getVersionizedValuesOfTid t tbl = tbl.
Proof.
  destruct t as [t|]; simpl; [|done].
  destruct (allVersionizedValues tbl !! Some t); [done|].
  simpl. by rewrite lookup_empty.
Qed.

Lemma deref_assign t keyStr value tbl :
  deref t (assign t keyStr value tbl) = <[keyStr := value]> (deref t tbl).
Proof.
  destruct t as [t|]; simpl; [|done]. by rewrite lookup_insert_eq.
Qed.

(** ** The two loops of [MergeToFinal] *)

Lemma checkVersion_None (finalValues : gmap string (VersionizedValueItem T))
    kvs dependentTids conflictKeys :
  checkVersion finalValues kvs dependentTids conflictKeys = None ↔
  ∃ keyStr value, (keyStr, value) ∈ kvs ∧ finalValues !! keyStr = None.
Proof.
  revert dependentTids conflictKeys.
  induction kvs as [|[k e] kvs IH]; intros d c; simpl.
  - split; [done|]. intros (? & ? & Hin & _). by apply elem_of_nil in Hin.
  - destruct (finalValues !! k) as [f|] eqn:Ef.
    + assert (∀ d c, checkVersion finalValues kvs d c = None ↔
                ∃ keyStr value, (keyStr, value) ∈ (k, e) :: kvs
                                ∧ finalValues !! keyStr = None) as Hstep.
      { intros d' c'. rewrite IH. split.
        - intros (k' & e' & Hin & Hk'). exists k', e'. split; [by right|done].
        - intros (k' & e' & Hin & Hk').
          apply elem_of_cons in Hin as [[= -> ->]|Hin]; [congruence|].
          by exists k', e'. }
      repeat case_match; apply Hstep.
    + split; [|done]. intros _. exists k, e. split; [by left|done].
Qed.

Lemma checkVersion_Some (finalValues : gmap string (VersionizedValueItem T))
    kvs dependentTids conflictKeys dependentTids' conflictKeys' :
  checkVersion finalValues kvs dependentTids conflictKeys
  = Some (dependentTids', conflictKeys') →
  (∀ keyStr, is_Some (conflictKeys' !! keyStr) ↔
     is_Some (conflictKeys !! keyStr)
     ∨ ∃ value finalValueItem, (keyStr, value) ∈ kvs
         ∧ finalValues !! keyStr = Some finalValueItem
         ∧ old value ≠ new finalValueItem)
  ∧ (∀ x, x ∈ dependentTids' ↔
       x ∈ dependentTids
       ∨ ∃ keyStr value finalValueItem, (keyStr, value) ∈ kvs
           ∧ finalValues !! keyStr = Some finalValueItem
           ∧ old value = new finalValueItem
           ∧ isDefault finalValueItem = false
           ∧ tid finalValueItem = x).
Proof.
  revert dependentTids conflictKeys.
  induction kvs as [|[k e] kvs IH]; intros d c; simpl.
  - intros [= <- <-]. split; intros x; split; try tauto.
    + intros [?|(? & ? & Hin & _)]; [done|]. by apply elem_of_nil in Hin.
    + intros [?|(? & ? & ? & Hin & _)]; [done|]. by apply elem_of_nil in Hin.
  - destruct (finalValues !! k) as [f|] eqn:Ef; [|done].
    destruct (old e =? new f) eqn:Ever; simpl.
    + apply Z.eqb_eq in Ever.
      destruct (isDefault f) eqn:Edef.
      * intros [Hc Hd]%IH. split.
        -- intros k'. rewrite Hc. split.
           ++ intros [?|(e' & f' & Hin & ?)]; [by left|right].
              exists e', f'. split; [by right|done].
           ++ intros [?|(e' & f' & Hin & Hf' & Hne)]; [by left|].
              apply elem_of_cons in Hin as [[= -> ->]|Hin]; [congruence|].
              right. by exists e', f'.
        -- intros x. rewrite Hd. split.
           ++ intros [?|(k' & e' & f' & Hin & ?)]; [by left|right].
              exists k', e', f'. split; [by right|done].
           ++ intros [?|(k' & e' & f' & Hin & Hf' & Heq & Hnd & Hx)]; [by left|].
              apply elem_of_cons in Hin as [[= -> ->]|Hin]; [congruence|].
              right. by exists k', e', f'.
      * intros [Hc Hd]%IH. split.
        -- intros k'. rewrite Hc. split.
           ++ intros [?|(e' & f' & Hin & ?)]; [by left|right].
              exists e', f'. split; [by right|done].
           ++ intros [?|(e' & f' & Hin & Hf' & Hne)]; [by left|].
              apply elem_of_cons in Hin as [[= -> ->]|Hin]; [congruence|].
              right. by exists e', f'.
        -- intros x. rewrite Hd, elem_of_union, elem_of_singleton. split.
           ++ intros [[->|?]|(k' & e' & f' & Hin & ?)].
              ** right. exists k, e, f. split; [by left|done].
              ** by left.
              ** right. exists k', e', f'. split; [by right|done].
           ++ intros [?|(k' & e' & f' & Hin & Hf' & Heq & Hnd & Hx)];
                [left; by right|].
              apply elem_of_cons in Hin as [[= -> ->]|Hin].
              ** left. left. congruence.
              ** right. by exists k', e', f'.
    + apply Z.eqb_neq in Ever.
      intros [Hc Hd]%IH. split.
      * intros k'. rewrite Hc, lookup_insert_is_Some. split.
        -- intros [[->|[_ ?]]|(e' & f' & Hin & ?)].
           ++ right. exists e, f. split; [by left|done].
           ++ by left.
           ++ right. exists e', f'. split; [by right|done].
        -- intros [?|(e' & f' & Hin & Hf' & Hne)].
           ++ left. destruct (decide (k = k')); [by left|by right].
           ++ apply elem_of_cons in Hin as [[= -> ->]|Hin]; [left; by left|].
              right. by exists e', f'.
      * intros x. rewrite Hd. split.
        -- intros [?|(k' & e' & f' & Hin & ?)]; [by left|right].
           exists k', e', f'. split; [by right|done].
        -- intros [?|(k' & e' & f' & Hin & Hf' & Heq & Hnd & Hx)]; [by left|].
           apply elem_of_cons in Hin as [[= -> ->]|Hin]; [congruence|].
           right. by exists k', e', f'.
Qed.

Lemma mergeValues_lookup kvs
    (finalValues : gmap string (VersionizedValueItem T)) keyStr :
  NoDup kvs.*1 →
  mergeValues kvs finalValues !! keyStr =
    match (list_to_map kvs : gmap string (VersionizedValueItem T)) !! keyStr with
    | Some value =>
        if dirty value then Some (CloneForFinal value)
        else finalValues !! keyStr
    | None => finalValues !! keyStr
    end.
Proof.
  revert finalValues.
  induction kvs as [|[k e] kvs IH]; intros fv Hnd; simpl; [done|].
  apply NoDup_cons in Hnd as [Hk Hnd].
  destruct (decide (k = keyStr)) as [->|Hne].
  - rewrite lookup_insert_eq.
    destruct (dirty e); simpl; rewrite IH by done;
      rewrite (not_elem_of_list_to_map_1 _ _ Hk); [|done].
    by rewrite lookup_insert_eq.
  - rewrite (lookup_insert_ne _ _ _ _ Hne).
    destruct (dirty e); simpl; rewrite IH by done; [|done].
    by rewrite (lookup_insert_ne _ _ _ _ Hne).
Qed.

(** What a call of [MergeToFinal] that returns without error has done. *)
Lemma MergeToFinal_ok t tbl tids tbl' :
  MergeToFinal t tbl = Some (ok tids, tbl') →
  (∀ keyStr value, deref t tbl !! keyStr = Some value →
     ∃ finalValueItem, finalVersionizedValue tbl !! keyStr = Some finalValueItem
                       ∧ old value = new finalValueItem)
  ∧ storage tbl' = storage tbl
  ∧ allVersionizedValues tbl'
    = allVersionizedValues (getVersionizedValuesOfTid t tbl)
  ∧ (∀ keyStr, finalVersionizedValue tbl' !! keyStr =
       match deref t tbl !! keyStr with
       | Some value =>
           if dirty value then Some (CloneForFinal value)
           else finalVersionizedValue tbl !! keyStr
       | None => finalVersionizedValue tbl !! keyStr
       end)
  ∧ NoDup tids
  ∧ (∀ x, x ∈ tids ↔
       ∃ keyStr value finalValueItem,
         deref t tbl !! keyStr = Some value
         ∧ finalVersionizedValue tbl !! keyStr = Some finalValueItem
         ∧ isDefault finalValueItem = false
         ∧ tid finalValueItem = x).
Proof.
  unfold MergeToFinal.
  rewrite deref_getVersionizedValuesOfTid, final_getVersionizedValuesOfTid.
  destruct (checkVersion _ _ _ _) as [[d c]|] eqn:Echk; [|done].
  destruct (0 <? size c)%nat eqn:Esz; [done|].
  intros [= <- <-]. simpl.
  apply Nat.ltb_ge in Esz.
  assert (c = ∅) as -> by (apply map_size_empty_iff; lia).
  pose proof (checkVersion_Some _ _ _ _ _ _ Echk) as [Hc Hd].
  assert (∀ keyStr value, deref t tbl !! keyStr = Some value →
            ∃ finalValueItem,
              finalVersionizedValue tbl !! keyStr = Some finalValueItem
              ∧ old value = new finalValueItem) as Hver.
  { intros k e He.
    destruct (finalVersionizedValue tbl !! k) as [f|] eqn:Ef.
    - exists f. split; [done|].
      destruct (decide (old e = new f)) as [|Hne]; [done|].
      destruct (proj2 (Hc k)) as [? Hbad]; [|by rewrite lookup_empty in Hbad].
      right. exists e, f. by rewrite elem_of_map_to_list.
    - assert (checkVersion (finalVersionizedValue tbl)
                (map_to_list (deref t tbl)) ∅ ∅ = None) as Hnone.
      { apply checkVersion_None. exists k, e. by rewrite elem_of_map_to_list. }
      congruence. }
  split; [done|]. split; [apply storage_getVersionizedValuesOfTid|].
  split; [done|]. split.
  { intros k. rewrite mergeValues_lookup by apply NoDup_fst_map_to_list.
    by rewrite list_to_map_to_list. }
  split; [apply NoDup_elements|].
  intros x. rewrite elem_of_elements, Hd. split.
  - intros [Hx|(k & e & f & Hin & Hf & _ & Hdef & Hx)]; [set_solver|].
    exists k, e, f. by rewrite <- elem_of_map_to_list.
  - intros (k & e & f & He & Hf & Hdef & Hx). right.
    exists k, e, f. rewrite elem_of_map_to_list.
    destruct (Hver k e He) as (f' & Hf' & ?). by simplify_eq.
Qed.

Lemma MergeToFinal_None t tbl :
  MergeToFinal t tbl = None ↔ ¬ covered t tbl.
Proof.
  unfold MergeToFinal, covered.
  rewrite deref_getVersionizedValuesOfTid, final_getVersionizedValuesOfTid.
  destruct (checkVersion _ _ _ _) as [[d c]|] eqn:Echk.
  - split; [by case_match|]. intros Hnc. exfalso. apply Hnc.
    intros k e He.
    destruct (finalVersionizedValue tbl !! k) eqn:Ef; [done|].
    assert (checkVersion (finalVersionizedValue tbl)
              (map_to_list (deref t tbl)) ∅ ∅ = None) as Hnone; [|congruence].
    apply checkVersion_None. exists k, e. by rewrite elem_of_map_to_list.
  - split; [|done]. intros _ Hcov.
    apply checkVersion_None in Echk as (k & e & Hin & Hf).
    apply elem_of_map_to_list in Hin.
    destruct (Hcov k e Hin) as [? ?]. congruence.
Qed.

Lemma MergeToFinal_fail t tbl err tbl' :
  MergeToFinal t tbl = Some (fail err, tbl') →
  err = ErrStagingTableKeyConfliction ∧ tbl' = tbl ∧ conflicting t tbl.
Proof.
  unfold MergeToFinal.
  rewrite deref_getVersionizedValuesOfTid, final_getVersionizedValuesOfTid.
  destruct (checkVersion _ _ _ _) as [[d c]|] eqn:Echk; [|done].
  destruct (0 <? size c)%nat eqn:Esz; [|done].
  intros [= <- <-].
  apply Nat.ltb_lt in Esz.
  apply checkVersion_Some in Echk as [Hc _].
  assert (c ≠ ∅) as Hne.
  { intros ->. rewrite map_size_empty in Esz. lia. }
  apply map_choose in Hne as (k & x & Hk).
  destruct (proj1 (Hc k)) as [[? Hbad]|(e & f & Hin & Hf & Hver)]; [done| |].
  { by rewrite lookup_empty in Hbad. }
  apply elem_of_map_to_list in Hin.
  split; [done|]. split.
  - by eapply getVersionizedValuesOfTid_id.
  - by exists k, e, f.
Qed.

Lemma MergeToFinal_conflict t tbl :
  covered t tbl → conflicting t tbl →
  MergeToFinal t tbl = Some (fail ErrStagingTableKeyConfliction, tbl).
Proof.
  intros Hcov (k & e & f & He & Hf & Hver).
  destruct (MergeToFinal t tbl) as [[[tids|err] tbl']|] eqn:E.
  - apply MergeToFinal_ok in E as (Hok & _).
    destruct (Hok k e He) as (f' & Hf' & ?). by simplify_eq.
  - by apply MergeToFinal_fail in E as (-> & -> & _).
  - by apply MergeToFinal_None in E.
Qed.

(** ** Fetch or derive *)

Lemma getAndIncr_final t keyStr key tbl finalValueItem :
  finalVersionizedValue tbl !! keyStr = Some finalValueItem →
  getAndIncrValueFromFinalVersionValue t keyStr key tbl
  = (ok (IncrVersionizedValueItem t finalValueItem), tbl).
Proof. unfold getAndIncrValueFromFinalVersionValue. by intros ->. Qed.

Lemma getAndIncr_store t keyStr key tbl v err :
  finalVersionizedValue tbl !! keyStr = None →
  storage tbl key = (v, err) → storeOk err →
  getAndIncrValueFromFinalVersionValue t keyStr key tbl
  = (ok (IncrVersionizedValueItem t (NewDefaultVersionizedValueItem key v)),
     assign None keyStr (NewDefaultVersionizedValueItem key v) tbl).
Proof.
  unfold getAndIncrValueFromFinalVersionValue. intros -> -> [->| ->]; [done|].
  by rewrite decide_True.
Qed.

Lemma getAndIncr_error t keyStr key tbl v err :
  finalVersionizedValue tbl !! keyStr = None →
  storage tbl key = (v, Some err) → err ≠ ErrKeyNotFound →
  getAndIncrValueFromFinalVersionValue t keyStr key tbl = (fail err, tbl).
Proof.
  unfold getAndIncrValueFromFinalVersionValue. intros -> -> Hne.
  by rewrite decide_False.
Qed.

Lemma storeOk_dec (err : option error) :
  storeOk err ∨ ∃ e, err = Some e ∧ e ≠ ErrKeyNotFound.
Proof.
  destruct err as [e|]; [|left; by left].
  destruct (decide (e = ErrKeyNotFound)) as [->|Hne]; [left; by right|].
  right. by exists e.
Qed.

Lemma getVersionizedValueForUpdate_fetched t key tbl :
  fetched t key tbl (getVersionizedValueForUpdate t key tbl).
Proof.
  unfold getVersionizedValueForUpdate.
  rewrite deref_getVersionizedValuesOfTid.
  destruct (deref t tbl !! Hex key) as [value|] eqn:Ed.
  - rewrite (getVersionizedValuesOfTid_id _ _ _ _ Ed). by constructor.
  - destruct (finalVersionizedValue tbl !! Hex key) as [f|] eqn:Ef.
    + rewrite (getAndIncr_final _ _ _ _ f)
        by by rewrite final_getVersionizedValuesOfTid.
      by constructor.
    + destruct (storage tbl key) as [v err] eqn:Es.
      destruct (storeOk_dec err) as [Hok|(e & -> & Hne)].
      * rewrite (getAndIncr_store _ _ _ _ v err); try done.
        -- by econstructor.
        -- by rewrite final_getVersionizedValuesOfTid.
        -- by rewrite storage_getVersionizedValuesOfTid.
      * rewrite (getAndIncr_error _ _ _ _ v e); try done.
        -- by econstructor.
        -- by rewrite final_getVersionizedValuesOfTid.
        -- by rewrite storage_getVersionizedValuesOfTid.
Qed.

(** ** The invariant *)

Lemma Inv_new s : Inv (NewStagingTable (T:=T) s).
Proof. split; simpl; intros *; by rewrite lookup_empty. Qed.

Lemma Inv_getVersionizedValuesOfTid t tbl :
  Inv tbl → Inv (getVersionizedValuesOfTid t tbl).
Proof.
  intros [I1 I2 I3]. destruct t as [x|]; simpl; [|done].
  destruct (allVersionizedValues tbl !! Some x) eqn:E; [done|].
  split; simpl; [| |done]; intros t' ws k e;
    (destruct (decide (Some x = t')) as [<-|Hne];
     [rewrite lookup_insert_eq; intros [= <-]; by rewrite lookup_empty
     |rewrite (lookup_insert_ne _ _ _ _ Hne); eauto]).
Qed.

Lemma Inv_assign_final keyStr value tbl :
  Inv tbl → MinInt ≤ new value ≤ MaxInt →
  Inv (assign None keyStr value tbl).
Proof.
  intros [I1 I2 I3] Hr. split; simpl.
  - intros t ws k e Hws He. rewrite lookup_insert_is_Some'. right. eauto.
  - done.
  - intros k f. destruct (decide (keyStr = k)) as [<-|Hne].
    + rewrite lookup_insert_eq. by intros [= <-].
    + rewrite (lookup_insert_ne _ _ _ _ Hne). eauto.
Qed.

Lemma Inv_assign_tid x keyStr value tbl :
  Inv tbl → is_Some (finalVersionizedValue tbl !! keyStr) →
  new value = int_add (old value) 1 →
  Inv (assign (Some x) keyStr value tbl).
Proof.
  intros [I1 I2 I3] Hf Hv. split; simpl; [| |done]; intros t' ws k e.
  - destruct (decide (Some x = t')) as [<-|Hne].
    + rewrite lookup_insert_eq. intros [= <-].
      destruct (decide (keyStr = k)) as [<-|Hk]; [done|].
      rewrite (lookup_insert_ne _ _ _ _ Hk).
      destruct (allVersionizedValues tbl !! Some x) eqn:E; simpl; [eauto|].
      by rewrite lookup_empty.
    + rewrite (lookup_insert_ne _ _ _ _ Hne). eauto.
  - destruct (decide (Some x = t')) as [<-|Hne].
    + rewrite lookup_insert_eq. intros [= <-].
      destruct (decide (keyStr = k)) as [<-|Hk].
      * rewrite lookup_insert_eq. by intros [= <-].
      * rewrite (lookup_insert_ne _ _ _ _ Hk).
        destruct (allVersionizedValues tbl !! Some x) eqn:E; simpl; [eauto|].
        by rewrite lookup_empty.
    + rewrite (lookup_insert_ne _ _ _ _ Hne). eauto.
Qed.

Lemma final_assign_tid x keyStr value tbl :
  finalVersionizedValue (assign (Some x) keyStr value tbl)
  = finalVersionizedValue tbl.
Proof. done. Qed.

(** An entry handed out by [getVersionizedValueForUpdate] sits in its slot,
    over a final entry, with a well-formed version pair. *)
Lemma fetched_Inv t key tbl value tbl1 :
  Inv tbl → fetched t key tbl (ok value, tbl1) →
  Inv tbl1
  ∧ deref t tbl1 !! Hex key = Some value
  ∧ is_Some (finalVersionizedValue tbl1 !! Hex key)
  ∧ (is_Some t → new value = int_add (old value) 1)
  ∧ MinInt ≤ new value ≤ MaxInt.
Proof.
  intros HI Hf. inversion Hf as [? Hd|f Hd Hfin|v err Hd Hfin Hs Hok|]; subst.
  - split; [done|]. split; [done|].
    destruct t as [x|]; simpl in Hd.
    + destruct (allVersionizedValues tbl1 !! Some x) as [ws|] eqn:E;
        simpl in Hd; [|by rewrite lookup_empty in Hd].
      split; [by eapply inv_cover|].
      assert (new value = int_add (old value) 1) as Hv by by eapply inv_incr.
      split; [done|]. rewrite Hv. apply int_add_range.
    + split; [done|]. split; [by intros [? [=]]|]. by eapply inv_range.
  - destruct t as [x|]; [|simpl in Hd; congruence].
    split.
    { apply Inv_assign_tid; [by apply Inv_getVersionizedValuesOfTid| |done].
      by rewrite final_getVersionizedValuesOfTid, Hfin. }
    split; [by rewrite deref_assign, lookup_insert_eq|].
    split; [by rewrite final_assign_tid, final_getVersionizedValuesOfTid, Hfin|].
    split; [done|]. apply int_add_range.
  - assert (Inv (assign None (Hex key) (NewDefaultVersionizedValueItem key v)
                   (getVersionizedValuesOfTid t tbl))) as HI1.
    { apply Inv_assign_final; [by apply Inv_getVersionizedValuesOfTid|].
      simpl. unfold MinInt, MaxInt. lia. }
    destruct t as [x|].
    + split.
      { apply Inv_assign_tid; [done| |done]. simpl. by rewrite lookup_insert_eq. }
      split; [by rewrite deref_assign, lookup_insert_eq|].
      split; [simpl; by rewrite lookup_insert_eq|].
      split; [done|]. apply int_add_range.
    + split; [apply Inv_assign_final; [done|apply int_add_range]|].
      split; [by rewrite deref_assign, lookup_insert_eq|].
      split; [simpl; by rewrite lookup_insert_eq|].
      split; [by intros [? [=]]|]. apply int_add_range.
Qed.

Lemma fetched_fail_Inv t key tbl err tbl1 :
  Inv tbl → fetched t key tbl (fail err, tbl1) → Inv tbl1.
Proof.
  intros HI Hf. inversion Hf; subst. by apply Inv_getVersionizedValuesOfTid.
Qed.

Lemma Inv_assign_same t keyStr value value' tbl :
  Inv tbl → deref t tbl !! keyStr = Some value →
  is_Some (finalVersionizedValue tbl !! keyStr) →
  (is_Some t → new value = int_add (old value) 1) →
  MinInt ≤ new value ≤ MaxInt →
  sameVersion value' value →
  Inv (assign t keyStr value' tbl).
Proof.
  intros HI Hd Hf Hv Hr (_ & _ & Ho & Hn). destruct t as [x|].
  - apply Inv_assign_tid; [done..|]. rewrite Hn, Ho. by apply Hv.
  - apply Inv_assign_final; [done|]. by rewrite Hn.
Qed.

Lemma Inv_update f t key tbl :
  (∀ value, sameVersion (f value) value) →
  Inv tbl → Inv (update f t key tbl).2.
Proof.
  intros Hf HI. unfold update.
  pose proof (getVersionizedValueForUpdate_fetched t key tbl) as Hfe.
  destruct (getVersionizedValueForUpdate t key tbl) as [[value|err] tbl1]; simpl.
  - destruct (fetched_Inv _ _ _ _ _ HI Hfe) as (HI1 & Hd & Hfin & Hv & Hr).
    by eapply Inv_assign_same.
  - by eapply fetched_fail_Inv.
Qed.

Lemma Inv_Get t key tbl : Inv tbl → Inv (Get t key tbl).2.
Proof.
  intros HI. unfold Get.
  pose proof (getVersionizedValueForUpdate_fetched t key tbl) as Hfe.
  destruct (getVersionizedValueForUpdate t key tbl) as [[value|err] tbl1]; simpl.
  - by destruct (fetched_Inv _ _ _ _ _ HI Hfe).
  - by eapply fetched_fail_Inv.
Qed.

Lemma Inv_Purge t tbl : Inv tbl → Inv (Purge t tbl).
Proof.
  intros [I1 I2 I3]. destruct t as [x|]; [|done].
  split; simpl; [| |done]; intros t' ws k e Hws;
    apply lookup_delete_Some in Hws as [_ Hws]; eauto.
Qed.

Lemma Inv_covered t tbl : Inv tbl → covered t tbl.
Proof.
  intros HI k e He. destruct t as [x|]; simpl in He; [|done].
  destruct (allVersionizedValues tbl !! Some x) as [ws|] eqn:E; simpl in He.
  - by eapply inv_cover.
  - by rewrite lookup_empty in He.
Qed.

Lemma deref_lookup_Some t tbl keyStr value :
  deref t tbl !! keyStr = Some value →
  match t with
  | None => finalVersionizedValue tbl !! keyStr = Some value
  | Some _ => ∃ tidValues, allVersionizedValues tbl !! t = Some tidValues
                           ∧ tidValues !! keyStr = Some value
  end.
Proof.
  destruct t as [x|]; simpl; [|done].
  destruct (allVersionizedValues tbl !! Some x) as [ws|]; simpl; [eauto|].
  by rewrite lookup_empty.
Qed.

Lemma Inv_MergeToFinal t tbl r tbl' :
  Inv tbl → MergeToFinal t tbl = Some (r, tbl') → Inv tbl'.
Proof.
  intros HI Hm. destruct r as [tids|err].
  - apply MergeToFinal_ok in Hm as (Hver & _ & Hall & Hfin & _).
    pose proof (Inv_getVersionizedValuesOfTid t _ HI) as [I1 I2 _].
    rewrite final_getVersionizedValuesOfTid in I1.
    split.
    + intros t' ws k e Hws He. rewrite Hall in Hws.
      specialize (I1 _ _ _ _ Hws He). rewrite Hfin. by repeat case_match.
    + intros t' ws k e Hws He. rewrite Hall in Hws. eauto.
    + intros k f. rewrite Hfin.
      destruct (deref t tbl !! k) as [e|] eqn:Ed; [|by eapply inv_range].
      destruct (dirty e); [|by eapply inv_range].
      intros [= <-]. simpl.
      apply deref_lookup_Some in Ed. destruct t as [x|].
      * destruct Ed as (ws & Hws & He).
        rewrite (inv_incr _ HI _ _ _ _ Hws He). apply int_add_range.
      * by eapply inv_range.
  - by apply MergeToFinal_fail in Hm as (_ & -> & _).
Qed.

Lemma Put_update t key v tbl :
  Put t key v tbl
  = update (λ value,
      set_val v (set_dirty (dirty value
                            || negb (bytes_Compare (valOf value) v =? 0)) value))
      t key tbl.
Proof. done. Qed.

Lemma Set_update t key v deleted dirty tbl :
  Set_ t key v deleted dirty tbl
  = update (λ value, set_dirty dirty (set_deleted deleted (set_val v value)))
      t key tbl.
Proof. done. Qed.

Lemma Del_update t key tbl :
  Del t key tbl
  = update (λ value, set_dirty true (set_deleted true value)) t key tbl.
Proof. done. Qed.

Lemma Inv_step op tbl tbl' : Inv tbl → step op tbl = Some tbl' → Inv tbl'.
Proof.
  intros HI. destruct op as [t k|t k v|t k v dl dr|t k|t|t]; simpl.
  - intros [= <-]. by apply Inv_Get.
  - intros [= <-]. rewrite Put_update. by apply Inv_update.
  - intros [= <-]. rewrite Set_update. by apply Inv_update.
  - intros [= <-]. rewrite Del_update. by apply Inv_update.
  - intros [= <-]. by apply Inv_Purge.
  - destruct (MergeToFinal t tbl) as [[r tbl1]|] eqn:Hm; [|done].
    intros [= <-]. by eapply Inv_MergeToFinal.
Qed.

Lemma step_total op tbl : Inv tbl → is_Some (step op tbl).
Proof.
  intros HI. destruct op as [t k|t k v|t k v dl dr|t k|t|t]; simpl; try done.
  destruct (MergeToFinal t tbl) as [[r tbl1]|] eqn:Hm; [done|].
  apply MergeToFinal_None in Hm. destruct Hm. by apply Inv_covered.
Qed.

Lemma run_Inv ops tbl tbl' : Inv tbl → run ops tbl = Some tbl' → Inv tbl'.
Proof.
  revert tbl. induction ops as [|op ops IH]; intros tbl HI; simpl.
  - by intros [= <-].
  - destruct (step op tbl) as [tbl1|] eqn:Hs; [|done].
    apply IH. by eapply Inv_step.
Qed.

Lemma run_total ops tbl : Inv tbl → is_Some (run ops tbl).
Proof.
  revert tbl. induction ops as [|op ops IH]; intros tbl HI; simpl; [done|].
  destruct (step_total op tbl HI) as [tbl1 Hs]. rewrite Hs.
  apply IH. by eapply Inv_step.
Qed.

(** ** Effect of the accessors on the final map *)

Lemma sameVersion_refl value : sameVersion value value.
Proof. by repeat split. Qed.

Lemma fetched_nil key tbl r :
  fetched None key tbl r →
  (∃ value, finalVersionizedValue tbl !! Hex key = Some value
            ∧ r = (ok value, tbl))
  ∨ (finalVersionizedValue tbl !! Hex key = None ∧
     ((∃ v err, storage tbl key = (v, err) ∧ storeOk err
        ∧ r = (ok (IncrVersionizedValueItem None
                     (NewDefaultVersionizedValueItem key v)),
               assign None (Hex key)
                 (IncrVersionizedValueItem None
                    (NewDefaultVersionizedValueItem key v))
                 (assign None (Hex key) (NewDefaultVersionizedValueItem key v)
                    tbl)))
      ∨ (∃ v err, storage tbl key = (v, Some err) ∧ err ≠ ErrKeyNotFound
           ∧ r = (fail err, tbl)))).
Proof.
  intros Hf. inversion Hf as [? Hd|f Hd Hfin|v err Hd Hfin Hs Hok
                              |v err Hd Hfin Hs Hne]; subst.
  - left. by exists value.
  - simpl in Hd. congruence.
  - right. split; [done|]. left. by exists v, err.
  - right. split; [done|]. right. by exists v, err.
Qed.

Lemma update_nil f key tbl :
  (∀ value, sameVersion (f value) value) →
  actsOnFinal key tbl (update f None key tbl).
Proof.
  intros Hf. unfold update, actsOnFinal.
  destruct (fetched_nil key tbl _ (getVersionizedValueForUpdate_fetched _ _ _))
    as [(value & Hv & ->)|[Hnone [(v & err & Hs & Hok & ->)
                                 |(v & err & Hs & Hne & ->)]]]; simpl.
  - repeat split; try done.
    + intros k Hk. by rewrite lookup_insert_ne.
    + rewrite Hv. exists (f value). by rewrite lookup_insert_eq.
  - repeat split; try done.
    + intros k Hk. by rewrite !lookup_insert_ne.
    + rewrite Hnone. left. eexists v, err, _.
      rewrite lookup_insert_eq. repeat split; try done; apply Hf.
  - repeat split; try done. rewrite Hnone. right. by exists v, err.
Qed.

Lemma Get_nil key tbl : actsOnFinal key tbl (Get None key tbl).
Proof.
  unfold Get, actsOnFinal.
  destruct (fetched_nil key tbl _ (getVersionizedValueForUpdate_fetched _ _ _))
    as [(value & Hv & ->)|[Hnone [(v & err & Hs & Hok & ->)
                                 |(v & err & Hs & Hne & ->)]]]; simpl.
  - repeat split; try done. rewrite Hv. exists value.
    split; [done|]. split; [done|]. apply sameVersion_refl.
  - repeat split; try done.
    + intros k Hk. by rewrite !lookup_insert_ne.
    + rewrite Hnone. left. eexists v, err, _.
      rewrite lookup_insert_eq. repeat split; done.
  - repeat split; try done. rewrite Hnone. right. by exists v, err.
Qed.

Lemma sameVersion_Put v value :
  sameVersion
    (set_val v (set_dirty (dirty value
                           || negb (bytes_Compare (valOf value) v =? 0)) value))
    value.
Proof. by repeat split. Qed.

Lemma sameVersion_Set v deleted dirty value :
  sameVersion (set_dirty dirty (set_deleted deleted (set_val v value))) value.
Proof. by repeat split. Qed.

Lemma sameVersion_Del value :
  sameVersion (set_dirty true (set_deleted true value)) value.
Proof. by repeat split. Qed.

(** A call for a transaction leaves the final versions alone: at most it
    loads the default entry of a key that had none. *)
Lemma final_assign_nil keyStr value tbl :
  finalVersionizedValue (assign None keyStr value tbl)
  = <[keyStr := value]> (finalVersionizedValue tbl).
Proof. done. Qed.

Lemma fetched_tid_finalVersion x key tbl r keyStr :
  fetched (Some x) key tbl r → finalVersion r.2 keyStr = finalVersion tbl keyStr.
Proof.
  intros Hf. inversion Hf as [? Hd|f Hd Hfin|v err Hd Hfin Hs Hok
                              |v err Hd Hfin Hs Hne]; subst;
    unfold finalVersion; cbn [snd];
    rewrite ?final_assign_tid, ?final_assign_nil,
      ?final_getVersionizedValuesOfTid; try done.
  destruct (decide (Hex key = keyStr)) as [<-|Hk].
  - by rewrite lookup_insert_eq, Hfin.
  - by rewrite lookup_insert_ne.
Qed.

Lemma update_tid_finalVersion f x key tbl keyStr :
  finalVersion (update f (Some x) key tbl).2 keyStr = finalVersion tbl keyStr.
Proof.
  unfold update.
  pose proof (getVersionizedValueForUpdate_fetched (Some x) key tbl) as Hfe.
  apply (fetched_tid_finalVersion _ _ _ _ keyStr) in Hfe.
  by destruct (getVersionizedValueForUpdate (Some x) key tbl) as [[?|?] ?].
Qed.

Lemma actsOnFinal_finalVersion key tbl r keyStr :
  Inv tbl → actsOnFinal key tbl r →
  finalVersion r.2 keyStr = finalVersion tbl keyStr
  ∨ (finalVersion r.2 keyStr = int_add (finalVersion tbl keyStr) 1
     ∧ Hex key = keyStr
     ∧ finalVersionizedValue tbl !! keyStr = None).
Proof.
  intros HI (_ & _ & Hother & Hkey). unfold finalVersion.
  destruct (decide (keyStr = Hex key)) as [->|Hk];
    [|left; by rewrite (Hother _ Hk)].
  destruct (finalVersionizedValue tbl !! Hex key) as [f|] eqn:Ef.
  - destruct Hkey as (value & _ & -> & (_ & _ & _ & ->)). by left.
  - destruct Hkey as [(v & err & value & _ & _ & _ & -> & (_ & _ & _ & ->))
                     |(v & err & _ & _ & ->)].
    + right. by simpl.
    + left. simpl. by rewrite Ef.
Qed.

(** ** Merge *)

(** C1.  On a table produced by any sequence of calls, [MergeToFinal t]
    returns the conflict error exactly when some key of [t]'s map carries
    an old version different from the new version of the final entry of
    that key; and whenever it returns an error, that error is the conflict
    error and the table, the final map included, is the one it was given. *)
Theorem MergeToFinal_conflict_iff (s : Storage) (ops : list (Op T)) tbl t :
  run ops (NewStagingTable s) = Some tbl →
  ((∃ tbl', MergeToFinal t tbl
            = Some (fail ErrStagingTableKeyConfliction, tbl'))
   ↔ ∃ keyStr value finalValueItem,
       deref t tbl !! keyStr = Some value
       ∧ finalVersionizedValue tbl !! keyStr = Some finalValueItem
       ∧ old value ≠ new finalValueItem)
  ∧ (∀ err tbl', MergeToFinal t tbl = Some (fail err, tbl') →
       err = ErrStagingTableKeyConfliction
       ∧ finalVersionizedValue tbl' = finalVersionizedValue tbl
       ∧ tbl' = tbl).
Proof.
  intros Hrun.
  assert (Inv tbl) as HI by (eapply run_Inv; [apply Inv_new|done]).
  split; [split|].
  - intros [tbl' Hm]. by apply MergeToFinal_fail in Hm as (_ & _ & Hc).
  - intros Hc. exists tbl. apply MergeToFinal_conflict; [|done].
    by apply Inv_covered.
  - intros err tbl' Hm. by apply MergeToFinal_fail in Hm as (-> & -> & _).
Qed.

(** C2.  When [MergeToFinal t] succeeds, the final entry of every key whose
    entry in [t]'s map is dirty is afterwards the [CloneForFinal] copy of
    that entry (same owner, key, value, versions and deleted flag, dirty
    set), and the final entry of every key whose entry is not dirty is the
    one it was before. *)
Theorem MergeToFinal_publishes t tbl tids tbl' keyStr value :
  MergeToFinal t tbl = Some (ok tids, tbl') →
  deref t tbl !! keyStr = Some value →
  (dirty value = true →
     finalVersionizedValue tbl' !! keyStr
     = Some {| tid := tid value; key := key value; val := val value;
               old := old value; new := new value;
               deleted := deleted value; dirty := true |})
  ∧ (dirty value = false →
       finalVersionizedValue tbl' !! keyStr
       = finalVersionizedValue tbl !! keyStr).
Proof.
  intros Hm Hd. apply MergeToFinal_ok in Hm as (_ & _ & _ & Hfin & _).
  rewrite Hfin, Hd. split; by intros ->.
Qed.


(** C10.  Every sequence of calls runs to a table (no call panics) in which
    every key of every map of the directory has a final entry; hence every
    key of the map [MergeToFinal t] scans has a final entry to compare with
    and to read the owner from, and the call returns.  On any table at all,
    [MergeToFinal t] panics exactly when some key of the scanned map lacks a
    final entry: the merge does not derive a default entry itself. *)
Theorem workspace_keys_have_final_entries (s : Storage) (ops : list (Op T)) :
  ∃ tbl, run ops (NewStagingTable s) = Some tbl
    ∧ (∀ x tidValues keyStr,
         allVersionizedValues tbl !! x = Some tidValues →
         is_Some (tidValues !! keyStr) →
         is_Some (finalVersionizedValue tbl !! keyStr))
    ∧ (∀ t keyStr, is_Some (deref t tbl !! keyStr) →
         is_Some (finalVersionizedValue tbl !! keyStr))
    ∧ (∀ t, is_Some (MergeToFinal t tbl))
    ∧ (∀ t tbl0, MergeToFinal t tbl0 = None ↔
         ∃ keyStr, is_Some (deref t tbl0 !! keyStr)
                   ∧ finalVersionizedValue tbl0 !! keyStr = None).
Proof.
  destruct (run_total ops (NewStagingTable s) (Inv_new s)) as [tbl Hrun].
  assert (Inv tbl) as HI by (eapply run_Inv; [apply Inv_new|done]).
  exists tbl. split; [done|]. split; [|split; [|split]].
  - intros x ws k Hws [e He]. by eapply inv_cover.
  - intros t k [e He]. by eapply Inv_covered.
  - intros t. destruct (MergeToFinal t tbl) eqn:Hm; [done|].
    apply MergeToFinal_None in Hm. destruct Hm. by apply Inv_covered.
  - intros t tbl0. rewrite MergeToFinal_None. unfold covered. split.
    + intros Hnc.
      destruct (decide (map_Forall (λ k _,
                  is_Some (finalVersionizedValue tbl0 !! k)) (deref t tbl0)))
        as [Hall|Hex].
      * destruct Hnc. intros k e He. by eapply Hall.
      * apply map_not_Forall in Hex as (k & e & He & Hk); [|apply _].
        exists k. split; [done|]. by apply eq_None_not_Some.
    + intros (k & [e He] & Hk) Hcov.
      destruct (Hcov k e He) as [? ?]. congruence.
Qed.

(** ** Accessors *)

Lemma Purge_lookup x tbl :
  allVersionizedValues (Purge (Some x) tbl) !! Some x = None.
Proof. simpl. apply lookup_delete_eq. Qed.

Lemma fetched_fun t key tbl r1 r2 :
  fetched t key tbl r1 → fetched t key tbl r2 → r1 = r2.
Proof.
  intros H1 H2.
  inversion H1; subst; inversion H2; subst; try congruence;
    repeat match goal with
           | Ha : ?x = _, Hb : ?x = _ |- _ =>
               rewrite Ha in Hb; first [discriminate|injection Hb as ?]
           end; subst; try done;
    match goal with
    | Hok : storeOk _ |- _ => destruct Hok as [?|?]; congruence
    end.
Qed.

(** C5.  For a transaction [x] that has no entry for [key] yet, an entry
    returned by [Get (Some x) key] has as old version the final map's
    version of the key before the call (0 when the key had no final entry),
    as new version that old version plus 1 (the final version being short
    of the largest int), and is not dirty; the call returns such an entry
    unless the store read fails.  For any identifier that has an entry for
    the key, [Get] returns that entry and leaves the table as it is, so
    value, deleted and dirty are never changed by [Get]. *)
Theorem Get_untouched_versions tbl key :
  (∀ x value tbl',
     deref (Some x) tbl !! Hex key = None →
     0 ≤ finalVersion tbl (Hex key) < MaxInt →
     Get (Some x) key tbl = (ok value, tbl') →
     old value = finalVersion tbl (Hex key)
     ∧ new value = old value + 1
     ∧ dirty value = false
     ∧ deref (Some x) tbl' !! Hex key = Some value
     ∧ ∃ finalValueItem,
         finalVersionizedValue tbl' !! Hex key = Some finalValueItem
         ∧ val value = val finalValueItem
         ∧ deleted value = deleted finalValueItem)
  ∧ (∀ x, deref (Some x) tbl !! Hex key = None →
       (∃ value tbl', Get (Some x) key tbl = (ok value, tbl'))
       ∨ (∃ v err, finalVersionizedValue tbl !! Hex key = None
            ∧ storage tbl key = (v, Some err) ∧ err ≠ ErrKeyNotFound
            ∧ (Get (Some x) key tbl).1 = fail err))
  ∧ (∀ t value, deref t tbl !! Hex key = Some value →
       Get t key tbl = (ok value, tbl)).
Proof.
  split; [|split].
  - intros x value tbl' Hd Hr HG. unfold Get in HG.
    pose proof (getVersionizedValueForUpdate_fetched (Some x) key tbl) as Hfe.
    rewrite HG in Hfe. remember (Some x) as t eqn:Et.
    inversion Hfe as [? Hd'|f Hd' Hfin|v err Hd' Hfin Hs Hok|]; subst.
    + congruence.
    + unfold finalVersion in *. rewrite Hfin in *.
      split; [done|]. split.
      { cbn [old new IncrVersionizedValueItem].
        apply int_add_1. unfold MinInt. lia. }
      split; [done|].
      split; [by rewrite deref_assign, lookup_insert_eq|].
      exists f. rewrite final_assign_tid, final_getVersionizedValuesOfTid.
      done.
    + unfold finalVersion in *. rewrite Hfin in *.
      split; [done|]. split; [done|]. split; [done|].
      split; [by rewrite deref_assign, lookup_insert_eq|].
      exists (NewDefaultVersionizedValueItem key v).
      rewrite final_assign_tid. cbn [finalVersionizedValue].
      by rewrite lookup_insert_eq.
  - intros x Hd. unfold Get.
    pose proof (getVersionizedValueForUpdate_fetched (Some x) key tbl) as Hfe.
    inversion Hfe as [? Hd'|f Hd' Hfin|v err Hd' Hfin Hs Hok
                      |v err Hd' Hfin Hs Hne]; subst.
    + left. eauto.
    + left. eauto.
    + left. eauto.
    + right. exists v, err. by repeat split.
  - intros t value Hd. unfold Get.
    apply (fetched_fun t key tbl);
      [apply getVersionizedValueForUpdate_fetched|by constructor].
Qed.

(** C6.  [Put t key v] takes the entry [getVersionizedValueForUpdate] hands
    out, sets its dirty flag to the previous flag or-ed with "[v] differs
    from the previous value", then sets its value to [v], and stores it in
    its slot; nothing else of the entry changes.  So a [Put] of the value
    the entry already has leaves dirty as it was, and a [Put] of another
    value makes the entry dirty.  When no entry can be handed out, [Put]
    returns that error. *)
Theorem Put_dirty_rule t key v tbl :
  match getVersionizedValueForUpdate t key tbl with
  | (ok value, tbl1) =>
      ∃ value', Put t key v tbl = (ok value', assign t (Hex key) value' tbl1)
        ∧ deref t (Put t key v tbl).2 !! Hex key = Some value'
        ∧ val value' = v
        ∧ dirty value' = dirty value || negb (bytes_Compare (val value) v =? 0)
        ∧ (dirty value' = true ↔ dirty value = true ∨ val value ≠ v)
        ∧ (val value = v → dirty value' = dirty value)
        ∧ (val value ≠ v → dirty value' = true)
        ∧ sameVersion value' value
        ∧ deleted value' = deleted value
  | (fail err, tbl1) => Put t key v tbl = (fail err, tbl1)
  end.
Proof.
  unfold Put.
  destruct (getVersionizedValueForUpdate t key tbl) as [[value|err] tbl1];
    [|done].
  eexists. split; [done|]. cbn [snd].
  split; [by rewrite deref_assign, lookup_insert_eq|].
  split; [done|]. split; [done|].
  assert ((bytes_Compare (val value) v =? 0) = true ↔ val value = v) as Hcmp.
  { rewrite Z.eqb_eq. apply bytes_Compare_eq. }
  simpl. unfold valOf.
  destruct (bytes_Compare (val value) v =? 0) eqn:E.
  - assert (val value = v) as Hv by by apply Hcmp.
    rewrite orb_false_r. repeat split; try done.
    + by left.
    + by intros [?|?].
  - assert (val value ≠ v) as Hv.
    { intros Hv. apply Hcmp in Hv. done. }
    rewrite orb_true_r. repeat split; try done. by right.
Qed.

Lemma getAndIncr_ext t keyStr key tbl tbl2 :
  storage tbl2 = storage tbl →
  finalVersionizedValue tbl2 = finalVersionizedValue tbl →
  (getAndIncrValueFromFinalVersionValue t keyStr key tbl2).1
  = (getAndIncrValueFromFinalVersionValue t keyStr key tbl).1
  ∧ finalVersionizedValue
      (getAndIncrValueFromFinalVersionValue t keyStr key tbl2).2
    = finalVersionizedValue
        (getAndIncrValueFromFinalVersionValue t keyStr key tbl).2.
Proof.
  unfold getAndIncrValueFromFinalVersionValue. intros Hs Hf. rewrite Hs, Hf.
  destruct (finalVersionizedValue tbl !! keyStr); [done|].
  destruct (storage tbl key) as [v [e|]]; simpl; [|by rewrite Hf].
  destruct (decide (e = ErrKeyNotFound)); simpl; by rewrite ?Hf.
Qed.

(** A first touch hands out what the derivation from the final map gives,
    and leaves the final map as that derivation leaves it. *)
Lemma Get_untouched x key tbl :
  deref (Some x) tbl !! Hex key = None →
  (Get (Some x) key tbl).1
  = (getAndIncrValueFromFinalVersionValue (Some x) (Hex key) key tbl).1
  ∧ finalVersionizedValue (Get (Some x) key tbl).2
    = finalVersionizedValue
        (getAndIncrValueFromFinalVersionValue (Some x) (Hex key) key tbl).2.
Proof.
  intros Hd. unfold Get, getVersionizedValueForUpdate.
  rewrite deref_getVersionizedValuesOfTid, Hd.
  destruct (getAndIncr_ext (Some x) (Hex key) key tbl
              (getVersionizedValuesOfTid (Some x) tbl)) as [H1 H2].
  { apply storage_getVersionizedValuesOfTid. }
  { apply final_getVersionizedValuesOfTid. }
  rewrite <- H1, <- H2.
  by destruct (getAndIncrValueFromFinalVersionValue _ _ _ _) as [[?|?] ?].
Qed.

(** C7.  [Purge (Some x)] removes [x]'s map from the directory and touches
    nothing else; a [Get (Some x) key] that follows returns, for every key,
    what the derivation from the current final map returns, the same as on
    any table with that final map and store on which [x] has no entry for
    the key.  A second [Purge] changes nothing, neither does a [Purge] of a
    transaction without a map, nor a [Purge] of nil. *)
Theorem Purge_discards x tbl :
  allVersionizedValues (Purge (Some x) tbl) !! Some x = None
  ∧ (∀ keyStr, deref (Some x) (Purge (Some x) tbl) !! keyStr = None)
  ∧ storage (Purge (Some x) tbl) = storage tbl
  ∧ finalVersionizedValue (Purge (Some x) tbl) = finalVersionizedValue tbl
  ∧ (∀ t, t ≠ Some x →
       allVersionizedValues (Purge (Some x) tbl) !! t
       = allVersionizedValues tbl !! t)
  ∧ (∀ key,
       (Get (Some x) key (Purge (Some x) tbl)).1
       = (getAndIncrValueFromFinalVersionValue (Some x) (Hex key) key tbl).1)
  ∧ (∀ key tbl2,
       storage tbl2 = storage tbl →
       finalVersionizedValue tbl2 = finalVersionizedValue tbl →
       deref (Some x) tbl2 !! Hex key = None →
       (Get (Some x) key (Purge (Some x) tbl)).1 = (Get (Some x) key tbl2).1
       ∧ finalVersionizedValue (Get (Some x) key (Purge (Some x) tbl)).2
         = finalVersionizedValue (Get (Some x) key tbl2).2)
  ∧ Purge (Some x) (Purge (Some x) tbl) = Purge (Some x) tbl
  ∧ (allVersionizedValues tbl !! Some x = None → Purge (Some x) tbl = tbl)
  ∧ Purge None tbl = tbl.
Proof.
  assert (∀ keyStr, deref (Some x) (Purge (Some x) tbl) !! keyStr = None)
    as Hgone.
  { intros k. simpl. by rewrite lookup_delete_eq. }
  assert (∀ key tbl2,
            storage tbl2 = storage tbl →
            finalVersionizedValue tbl2 = finalVersionizedValue tbl →
            deref (Some x) tbl2 !! Hex key = None →
            (Get (Some x) key tbl2).1
            = (getAndIncrValueFromFinalVersionValue (Some x) (Hex key) key tbl).1
            ∧ finalVersionizedValue (Get (Some x) key tbl2).2
              = finalVersionizedValue
                  (getAndIncrValueFromFinalVersionValue (Some x) (Hex key)
                     key tbl).2) as Hfresh.
  { intros key tbl2 Hs Hf Hd.
    destruct (Get_untouched x key tbl2 Hd) as [-> ->].
    by apply getAndIncr_ext. }
  split; [apply Purge_lookup|]. split; [done|].
  split; [done|]. split; [done|]. split.
  { intros t Hne. simpl. by rewrite lookup_delete_ne. }
  split.
  { intros key. by apply Hfresh. }
  split.
  { intros key tbl2 Hs Hf Hd.
    destruct (Hfresh key tbl2 Hs Hf Hd) as [-> ->]. by apply Hfresh. }
  split.
  { simpl. by rewrite delete_delete_eq. }
  split; [|done].
  intros Hnone. destruct tbl as [s a f]. simpl in *.
  by rewrite delete_id.
Qed.

(** C9.  A derivation that has to read the store, the final map having no
    entry under the key: on "not found" (as on a value) it does not fail,
    it installs in the final map the default entry (owner nil, versions 0
    and 0, not deleted, not dirty) holding the value the store handed back,
    and hands out the incremented copy of it; on any other error it returns
    that very error and leaves the table as it is, and [Get], [Put], [Set]
    and [Del] return the same error with the final map unchanged. *)
Theorem store_read_outcomes t key tbl v :
  finalVersionizedValue tbl !! Hex key = None →
  (storage tbl key = (v, Some ErrKeyNotFound) →
     ∃ tbl1,
       getAndIncrValueFromFinalVersionValue t (Hex key) key tbl
       = (ok (IncrVersionizedValueItem t
                {| tid := None; key := key; val := v; old := 0; new := 0;
                   deleted := false; dirty := false |}), tbl1)
       ∧ finalVersionizedValue tbl1 !! Hex key
         = Some {| tid := None; key := key; val := v; old := 0; new := 0;
                   deleted := false; dirty := false |}
       ∧ ∃ value, (Get t key tbl).1 = ok value)
  ∧ (∀ err, err ≠ ErrKeyNotFound → storage tbl key = (v, Some err) →
       getAndIncrValueFromFinalVersionValue t (Hex key) key tbl
       = (fail err, tbl)
       ∧ (deref t tbl !! Hex key = None →
          ∀ r, (r = Get t key tbl ∨ (∃ w, r = Put t key w tbl)
                ∨ (∃ w deleted dirty, r = Set_ t key w deleted dirty tbl)
                ∨ r = Del t key tbl) →
            r.1 = fail err
            ∧ finalVersionizedValue r.2 = finalVersionizedValue tbl)).
Proof.
  intros Hfin. split.
  - intros Hs. eexists. split.
    { apply (getAndIncr_store _ _ _ _ v (Some ErrKeyNotFound)); try done.
      by right. }
    split; [simpl; by rewrite lookup_insert_eq|].
    unfold Get.
    pose proof (getVersionizedValueForUpdate_fetched t key tbl) as Hfe.
    inversion Hfe as [? Hd' Heq|f Hd' Hfin' Heq|v' err Hd' Hfin' Hs' Hok Heq
                      |v' err Hd' Hfin' Hs' Hne Heq]; try (by eexists).
    congruence.
  - intros err Hne Hs.
    split; [by apply (getAndIncr_error _ _ _ _ v)|].
    intros Hd.
    assert (getVersionizedValueForUpdate t key tbl
            = (fail err, getVersionizedValuesOfTid t tbl)) as Hg.
    { apply (fetched_fun t key tbl);
        [apply getVersionizedValueForUpdate_fetched|by econstructor]. }
    intros r [->|[[w ->]|[(w & dl & dr & ->)| ->]]];
      unfold Get, Put, Set_, Del; rewrite Hg; cbn [fst snd];
      by rewrite final_getVersionizedValuesOfTid.
Qed.

(** ** The nil identifier and the final versions *)

(** C4 (amended).  [Get], [Put], [Set] and [Del] given the nil identifier
    work on the final map alone and derive nothing for a key that has a
    final entry: that entry is the one handed back, it keeps its owner, key
    and version pair, and [Get] leaves the table as it is.  For a key
    without a final entry the call loads the default entry from the store
    and puts its incremented copy (owner nil, versions 0 and 1) in the final
    map, unless the store fails. *)
Theorem nil_tid_acts_on_final key tbl :
  actsOnFinal key tbl (Get None key tbl)
  ∧ (∀ v, actsOnFinal key tbl (Put None key v tbl))
  ∧ (∀ v deleted dirty,
       actsOnFinal key tbl (Set_ None key v deleted dirty tbl))
  ∧ actsOnFinal key tbl (Del None key tbl)
  ∧ (∀ value, finalVersionizedValue tbl !! Hex key = Some value →
       Get None key tbl = (ok value, tbl))
  ∧ (∀ v, old (IncrVersionizedValueItem (T:=T) None
                 (NewDefaultVersionizedValueItem key v)) = 0
          ∧ new (IncrVersionizedValueItem (T:=T) None
                   (NewDefaultVersionizedValueItem key v)) = 1).
Proof.
  split; [apply Get_nil|].
  split; [intros v; rewrite Put_update; apply update_nil, sameVersion_Put|].
  split; [intros v dl dr; rewrite Set_update;
          apply update_nil, sameVersion_Set|].
  split; [rewrite Del_update; apply update_nil, sameVersion_Del|].
  split; [|done].
  intros value Hv. unfold Get.
  apply (fetched_fun None key tbl);
    [apply getVersionizedValueForUpdate_fetched|by constructor].
Qed.

Lemma Inv_finalVersion_range tbl keyStr :
  Inv tbl → MinInt ≤ finalVersion tbl keyStr ≤ MaxInt.
Proof.
  intros HI. unfold finalVersion.
  destruct (finalVersionizedValue tbl !! keyStr) eqn:E; [by eapply inv_range|].
  unfold MinInt, MaxInt. lia.
Qed.

Lemma update_finalVersion f t key tbl keyStr :
  (∀ value, sameVersion (f value) value) → Inv tbl →
  finalVersion (update f t key tbl).2 keyStr = finalVersion tbl keyStr
  ∨ (finalVersion (update f t key tbl).2 keyStr
     = int_add (finalVersion tbl keyStr) 1
     ∧ t = None ∧ Hex key = keyStr
     ∧ finalVersionizedValue tbl !! keyStr = None).
Proof.
  intros Hf HI. destruct t as [x|].
  - left. apply update_tid_finalVersion.
  - destruct (actsOnFinal_finalVersion key tbl _ keyStr HI
                (update_nil f key tbl Hf)) as [?|(? & ? & ?)]; [by left|].
    by right.
Qed.

Lemma Get_finalVersion t key tbl keyStr :
  Inv tbl →
  finalVersion (Get t key tbl).2 keyStr = finalVersion tbl keyStr
  ∨ (finalVersion (Get t key tbl).2 keyStr
     = int_add (finalVersion tbl keyStr) 1
     ∧ t = None ∧ Hex key = keyStr
     ∧ finalVersionizedValue tbl !! keyStr = None).
Proof.
  intros HI. destruct t as [x|].
  - left. apply (fetched_tid_finalVersion x key tbl).
    apply getVersionizedValueForUpdate_fetched.
  - destruct (actsOnFinal_finalVersion key tbl _ keyStr HI (Get_nil key tbl))
      as [?|(? & ? & ?)]; [by left|].
    by right.
Qed.

Lemma MergeToFinal_finalVersion t tbl tids tbl' keyStr :
  Inv tbl → MergeToFinal t tbl = Some (ok tids, tbl') →
  finalVersion tbl' keyStr = finalVersion tbl keyStr
  ∨ finalVersion tbl' keyStr = int_add (finalVersion tbl keyStr) 1.
Proof.
  intros HI Hm. apply MergeToFinal_ok in Hm as (Hver & _ & _ & Hfin & _).
  unfold finalVersion. rewrite Hfin.
  destruct (deref t tbl !! keyStr) as [e|] eqn:Ed; [|by left].
  destruct (dirty e); [|by left].
  destruct (Hver _ _ Ed) as (f & Hf & Hof). rewrite Hf. simpl.
  apply deref_lookup_Some in Ed. destruct t as [x|].
  - right. destruct Ed as (ws & Hws & He).
    by rewrite (inv_incr _ HI _ _ _ _ Hws He), Hof.
  - left. congruence.
Qed.

(** C3 (amended).  Along every sequence of calls and for every key, one
    call leaves the final map's version of the key (0 while the key has no
    final entry) as it is or raises it by one [int] increment, which is +1
    short of the largest int; it is raised only by a [MergeToFinal] that
    succeeds, or by a [Get], [Put], [Set] or [Del] given the nil identifier
    for that key while the key has no final entry. *)
Theorem finalVersion_step (s : Storage) (ops : list (Op T)) tbl op tbl' keyStr :
  run ops (NewStagingTable s) = Some tbl →
  step op tbl = Some tbl' →
  finalVersion tbl' keyStr = finalVersion tbl keyStr
  ∨ (finalVersion tbl' keyStr = int_add (finalVersion tbl keyStr) 1
     ∧ (finalVersion tbl keyStr < MaxInt →
        finalVersion tbl' keyStr = finalVersion tbl keyStr + 1)
     ∧ ((∃ t tids, op = OpMergeToFinal t
                   ∧ MergeToFinal t tbl = Some (ok tids, tbl'))
        ∨ (opTid op = None
           ∧ (∃ key, opKey op = Some key ∧ Hex key = keyStr)
           ∧ finalVersionizedValue tbl !! keyStr = None))).
Proof.
  intros Hrun Hstep.
  assert (Inv tbl) as HI by (eapply run_Inv; [apply Inv_new|done]).
  pose proof (Inv_finalVersion_range tbl keyStr HI) as Hr.
  assert (finalVersion tbl keyStr < MaxInt →
          int_add (finalVersion tbl keyStr) 1 = finalVersion tbl keyStr + 1)
    as Hplus by (intros; apply int_add_1; lia).
  destruct op as [t k|t k v|t k v dl dr|t k|t|t]; simpl in Hstep.
  - injection Hstep as <-.
    destruct (Get_finalVersion t k tbl keyStr HI) as [?|(E & -> & ? & ?)];
      [by left|right].
    split; [done|]. split; [rewrite E; apply Hplus|]. right. eauto.
  - injection Hstep as <-. rewrite Put_update.
    destruct (update_finalVersion _ t k tbl keyStr (sameVersion_Put v) HI)
      as [?|(E & -> & ? & ?)]; [by left|right].
    split; [done|]. split; [rewrite E; apply Hplus|]. right. eauto.
  - injection Hstep as <-. rewrite Set_update.
    destruct (update_finalVersion _ t k tbl keyStr (sameVersion_Set v dl dr) HI)
      as [?|(E & -> & ? & ?)]; [by left|right].
    split; [done|]. split; [rewrite E; apply Hplus|]. right. eauto.
  - injection Hstep as <-. rewrite Del_update.
    destruct (update_finalVersion _ t k tbl keyStr sameVersion_Del HI)
      as [?|(E & -> & ? & ?)]; [by left|right].
    split; [done|]. split; [rewrite E; apply Hplus|]. right. eauto.
  - injection Hstep as <-. left. by destruct t.
  - destruct (MergeToFinal t tbl) as [[[tids|err] tbl1]|] eqn:Hm;
      simpl in Hstep; [| |done]; injection Hstep as <-.
    + destruct (MergeToFinal_finalVersion _ _ _ _ keyStr HI Hm) as [?|E];
        [by left|right].
      split; [done|]. split; [rewrite E; apply Hplus|]. left. eauto.
    + apply MergeToFinal_fail in Hm as (_ & -> & _). by left.
Qed.

End Properties.

(** * The properties on concrete tables *)

Lemma MergeToFinal_conflict_iff_witness :
  ∃ tbl', MergeToFinal (Some 1%nat) tblAB
          = Some (fail ErrStagingTableKeyConfliction, tbl').
Proof.
  apply (MergeToFinal_conflict_iff emptyStore opsAB tblAB (Some 1%nat)).
  - vm_compute. reflexivity.
  - eexists (Hex kA), _, _.
    split; [vm_compute; reflexivity|].
    split; [vm_compute; reflexivity|].
    vm_compute. discriminate.
Defined.

Lemma MergeToFinal_publishes_witness :
  finalVersionizedValue tblMerged !! Hex kA
  = Some {| tid := Some 2%nat; key := kA; val := vOne; old := 0; new := 1;
            deleted := false; dirty := true |}.
Proof.
  apply (MergeToFinal_publishes (Some 2%nat) tblPut [] tblMerged (Hex kA)
           {| tid := Some 2%nat; key := kA; val := vOne; old := 0; new := 1;
              deleted := false; dirty := true |}).
  - vm_compute. reflexivity.
  - vm_compute. reflexivity.
  - reflexivity.
Defined.


Lemma finalVersion_step_witness :
  finalVersion tblMerged (Hex kA) = finalVersion tblPut (Hex kA)
  ∨ (finalVersion tblMerged (Hex kA) = int_add (finalVersion tblPut (Hex kA)) 1
     ∧ (finalVersion tblPut (Hex kA) < MaxInt →
        finalVersion tblMerged (Hex kA) = finalVersion tblPut (Hex kA) + 1)
     ∧ ((∃ t tids, OpMergeToFinal (Some 2%nat) = OpMergeToFinal t
                   ∧ MergeToFinal t tblPut = Some (ok tids, tblMerged))
        ∨ (opTid (OpMergeToFinal (Some 2%nat)) = None
           ∧ (∃ key, opKey (OpMergeToFinal (Some 2%nat)) = Some key
                     ∧ Hex key = Hex kA)
           ∧ finalVersionizedValue tblPut !! Hex kA = None))).
Proof.
  apply (finalVersion_step emptyStore opsPut tblPut
           (OpMergeToFinal (Some 2%nat)) tblMerged (Hex kA)).
  - vm_compute. reflexivity.
  - vm_compute. reflexivity.
Defined.

Lemma Get_untouched_versions_witness :
  old (IncrVersionizedValueItem (Some 1%nat)
         {| tid := Some 2%nat; key := kA; val := vOne; old := 0; new := 1;
            deleted := false; dirty := true |}) = 1
  ∧ new (IncrVersionizedValueItem (Some 1%nat)
           {| tid := Some 2%nat; key := kA; val := vOne; old := 0; new := 1;
              deleted := false; dirty := true |}) = 1 + 1.
Proof.
  destruct (proj1 (Get_untouched_versions tblMerged kA) 1%nat
              (IncrVersionizedValueItem (Some 1%nat)
                 {| tid := Some 2%nat; key := kA; val := vOne; old := 0;
                    new := 1; deleted := false; dirty := true |})
              (Get (Some 1%nat) kA tblMerged).2) as (Ho & Hn & _).
  - vm_compute. reflexivity.
  - vm_compute. split; [discriminate|reflexivity].
  - vm_compute. reflexivity.
  - split; [exact Ho|exact Hn].
Defined.

Lemma store_read_outcomes_witness :
  getAndIncrValueFromFinalVersionValue (Some 1%nat) (Hex kA) kA
    (NewStagingTable brokenStore)
  = (fail (ErrOther "io"), NewStagingTable brokenStore).
Proof.
  apply (proj2 (store_read_outcomes (Some 1%nat) kA
                  (NewStagingTable brokenStore) [] (eq_refl _))
           (ErrOther "io")).
  - discriminate.
  - reflexivity.
Defined.

(** C3, as first stated, fails: on the new table over the empty store,
    [Get nil "a"] is no merge, yet the final version of "a" is 0 before the
    call and 1 after it. *)
Lemma finalVersion_raised_by_nil_Get :
  run [] (NewStagingTable (T:=nat) emptyStore)
  = Some (NewStagingTable emptyStore)
  ∧ step (OpGet None kA) (NewStagingTable (T:=nat) emptyStore)
    = Some (Get None kA (NewStagingTable emptyStore)).2
  ∧ finalVersion (NewStagingTable (T:=nat) emptyStore) (Hex kA) = 0
  ∧ finalVersion (Get (T:=nat) None kA (NewStagingTable emptyStore)).2 (Hex kA)
    = 1
  ∧ ¬ (∀ (ops : list (Op nat)) tbl op tbl' keyStr,
         run ops (NewStagingTable emptyStore) = Some tbl →
         step op tbl = Some tbl' →
         finalVersion tbl' keyStr ≠ finalVersion tbl keyStr →
         ∃ t tids, op = OpMergeToFinal t
                   ∧ MergeToFinal t tbl = Some (ok tids, tbl')).
Proof.
  split; [reflexivity|]. split; [reflexivity|].
  split; [reflexivity|]. split; [vm_compute; reflexivity|].
  intros Hclaim.
  destruct (Hclaim [] (NewStagingTable emptyStore) (OpGet None kA)
              (Get None kA (NewStagingTable emptyStore)).2 (Hex kA))
    as (t & tids & Hop & _); try reflexivity; [|discriminate].
  vm_compute. discriminate.
Qed.

(** C4, as first stated, fails: on the new table over the empty store,
    [Get nil "a"] first puts the default entry, versions 0 and 0, in the
    final map, then replaces it by the incremented copy it hands back,
    versions 0 and 1. *)
Lemma nil_Get_installs_incremented_copy :
  finalVersionizedValue
    (getAndIncrValueFromFinalVersionValue (T:=nat) None (Hex kA) kA
       (NewStagingTable emptyStore)).2 !! Hex kA
  = Some (NewDefaultVersionizedValueItem kA [])
  ∧ (Get (T:=nat) None kA (NewStagingTable emptyStore)).1
    = ok (IncrVersionizedValueItem None (NewDefaultVersionizedValueItem kA []))
  ∧ finalVersionizedValue
      (Get (T:=nat) None kA (NewStagingTable emptyStore)).2 !! Hex kA
    = Some {| tid := None; key := kA; val := []; old := 0; new := 1;
              deleted := false; dirty := false |}
  ∧ (Get (T:=nat) (Some 1%nat) kA
       (Get None kA (NewStagingTable emptyStore)).2).1
    = ok {| tid := Some 1%nat; key := kA; val := []; old := 1; new := 2;
            deleted := false; dirty := false |}.
Proof. repeat split; vm_compute; reflexivity. Qed.

(** * Further properties *)

(** ** The hexadecimal form of a key *)

Lemma hexDigit_code (n : N) :
  (n < 16)%N →
  N_of_ascii (hexDigit n) = (if (n <? 10)%N then 48 + n else 87 + n)%N.
Proof.
  intros Hn. destruct n as [|p]; [reflexivity|].
  do 4 (try destruct p as [p|p|]); try lia; reflexivity.
Qed.

Lemma hexDigit_inj (n m : N) :
  (n < 16)%N → (m < 16)%N → hexDigit n = hexDigit m → n = m.
Proof.
  intros Hn Hm Heq. apply (f_equal N_of_ascii) in Heq.
  rewrite !hexDigit_code in Heq by done.
  destruct (N.ltb_spec n 10), (N.ltb_spec m 10); lia.
Qed.

Lemma Hex_inj (a b : bytes) : Hex a = Hex b → a = b.
Proof.
  revert b. induction a as [|x a IH]; intros [|y b]; simpl; try done.
  intros [= Hhi Hlo Hrest].
  pose proof (Byte.to_N_bounded x). pose proof (Byte.to_N_bounded y).
  apply hexDigit_inj in Hhi; [|apply N.Div0.div_lt_upper_bound; lia..].
  apply hexDigit_inj in Hlo; [|apply N.mod_lt; lia..].
  f_equal; [|by apply IH].
  apply Byte_to_N_inj.
  rewrite (N.div_mod (Byte.to_N x) 16), (N.div_mod (Byte.to_N y) 16) by lia.
  by rewrite Hhi, Hlo.
Qed.

Section MoreProperties.

Context {T : Type} `{Countable T}.

Implicit Types (tbl : StagingTable T) (value : VersionizedValueItem T).
Implicit Types (t : option T) (key : bytes) (keyStr : string).

(** ** What an accessor hands out *)

Lemma Get_present t key tbl value :
  deref t tbl !! Hex key = Some value → Get t key tbl = (ok value, tbl).
Proof.
  intros Hd. unfold Get.
  apply (fetched_fun t key tbl);
    [apply getVersionizedValueForUpdate_fetched|by constructor].
Qed.

Lemma fetched_slot t key tbl value tbl1 :
  fetched t key tbl (ok value, tbl1) → deref t tbl1 !! Hex key = Some value.
Proof.
  intros Hf. inversion Hf; subst; [done|..];
    by rewrite deref_assign, lookup_insert_eq.
Qed.

Lemma update_slot f t key tbl value tbl1 :
  update f t key tbl = (ok value, tbl1) →
  deref t tbl1 !! Hex key = Some value
  ∧ ∃ fetchedValue tbl0,
      getVersionizedValueForUpdate t key tbl = (ok fetchedValue, tbl0)
      ∧ value = f fetchedValue.
Proof.
  unfold update.
  destruct (getVersionizedValueForUpdate t key tbl) as [[v|err] tbl0]; [|done].
  intros [= <- <-]. split; [by rewrite deref_assign, lookup_insert_eq|].
  by exists v, tbl0.
Qed.

(** An accessor is a [Get] or an [update] that keeps owner, key and
    versions. *)
Lemma accessor_cases op tbl r :
  accessor op tbl = Some r →
  ∃ key, opKey op = Some key
    ∧ (r = Get (opTid op) key tbl
       ∨ ∃ f, (∀ value, sameVersion (f value) value)
              ∧ r = update f (opTid op) key tbl).
Proof.
  destruct op as [t k|t k v|t k v dl dr|t k|t|t]; simpl; intros [= <-];
    exists k; (split; [done|]).
  - by left.
  - right. eexists. split; [|apply Put_update]. apply sameVersion_Put.
  - right. eexists. split; [|apply Set_update]. apply sameVersion_Set.
  - right. eexists. split; [|apply Del_update]. apply sameVersion_Del.
Qed.

Lemma accessor_slot op tbl value tbl1 key :
  accessor op tbl = Some (ok value, tbl1) → opKey op = Some key →
  deref (opTid op) tbl1 !! Hex key = Some value.
Proof.
  intros Ha Hk. apply accessor_cases in Ha as (k & Hk' & [Hr|(f & _ & Hr)]).
  - assert (k = key) as -> by congruence.
    eapply fetched_slot. unfold Get in Hr. rewrite Hr.
    apply getVersionizedValueForUpdate_fetched.
  - assert (k = key) as -> by congruence.
    symmetry in Hr. by apply update_slot in Hr as [? _].
Qed.

(** X1.  [Set] makes value, deleted flag and dirty flag of the entry the
    given ones whatever they were, keeps owner, key and versions of the
    entry it fetched or derived, and the entry it returns is the one a
    [Get] that follows returns, without any further change of the table. *)
Theorem Set_overwrites t key v deleted' dirty' tbl value tbl1 :
  Set_ t key v deleted' dirty' tbl = (ok value, tbl1) →
  val value = v ∧ deleted value = deleted' ∧ dirty value = dirty'
  ∧ (∃ fetchedValue tbl0,
       getVersionizedValueForUpdate t key tbl = (ok fetchedValue, tbl0)
       ∧ sameVersion value fetchedValue)
  ∧ (∀ value0, deref t tbl !! Hex key = Some value0 →
       sameVersion value value0)
  ∧ Get t key tbl1 = (ok value, tbl1).
Proof.
  rewrite Set_update. intros Hu.
  destruct (update_slot _ _ _ _ _ _ Hu) as (Hslot & v0 & tbl0 & Hg & ->).
  split; [done|]. split; [done|]. split; [done|].
  split; [exists v0, tbl0; split; [done|apply sameVersion_Set]|].
  split; [|by apply Get_present].
  intros value0 Hd.
  pose proof (getVersionizedValueForUpdate_fetched t key tbl) as Hfe.
  rewrite Hg in Hfe.
  assert ((ok v0, tbl0) = (ok value0, tbl)) as [= -> ->].
  { eapply fetched_fun; [done|by constructor]. }
  apply sameVersion_Set.
Qed.

(** X2.  [Del] marks the entry deleted and dirty, keeps its value, owner,
    key and versions, and the entry it returns is the one a [Get] that
    follows returns. *)
Theorem Del_marks t key tbl value tbl1 :
  Del t key tbl = (ok value, tbl1) →
  deleted value = true ∧ dirty value = true
  ∧ (∃ fetchedValue tbl0,
       getVersionizedValueForUpdate t key tbl = (ok fetchedValue, tbl0)
       ∧ val value = val fetchedValue
       ∧ sameVersion value fetchedValue)
  ∧ Get t key tbl1 = (ok value, tbl1).
Proof.
  rewrite Del_update. intros Hu.
  destruct (update_slot _ _ _ _ _ _ Hu) as (Hslot & v0 & tbl0 & Hg & ->).
  split; [done|]. split; [done|].
  split; [exists v0, tbl0; repeat split; done|].
  by apply Get_present.
Qed.

(** X3.  The entry any accessor returns is stored in the slot of its
    transaction and key: a [Get] for the same transaction and key right
    after it returns that very entry and leaves the table as it is (so a
    transaction reads its own writes, and a repeated [Get] changes
    nothing). *)
Theorem accessor_then_Get op tbl value tbl1 key :
  accessor op tbl = Some (ok value, tbl1) → opKey op = Some key →
  Get (opTid op) key tbl1 = (ok value, tbl1).
Proof.
  intros Ha Hk. apply Get_present. by eapply accessor_slot.
Qed.

(** ** Isolation of the transactions *)

Lemma deref_assign_ne t y keyStr value tbl :
  t ≠ Some y → deref (Some y) (assign t keyStr value tbl) = deref (Some y) tbl.
Proof.
  intros Hne. destruct t as [x|]; simpl; [|done].
  by rewrite lookup_insert_ne.
Qed.

Lemma deref_getVersionizedValuesOfTid_any t y tbl :
  deref (Some y) (getVersionizedValuesOfTid t tbl) = deref (Some y) tbl.
Proof.
  destruct (decide (t = Some y)) as [->|Hne];
    [apply deref_getVersionizedValuesOfTid|].
  destruct t as [x|]; simpl; [|done].
  destruct (allVersionizedValues tbl !! Some x); [done|].
  simpl. by rewrite lookup_insert_ne.
Qed.

Lemma storage_assign t keyStr value tbl :
  storage (assign t keyStr value tbl) = storage tbl.
Proof. by destruct t. Qed.

(** What the derivation hands out is read off the final entry of the key,
    and off the store only when there is none. *)
Lemma getAndIncr_result t keyStr key tbl :
  (getAndIncrValueFromFinalVersionValue t keyStr key tbl).1 =
  match finalVersionizedValue tbl !! keyStr with
  | Some finalValueItem => ok (IncrVersionizedValueItem t finalValueItem)
  | None =>
      match storage tbl key with
      | (v, Some err) =>
          if decide (err = ErrKeyNotFound)
          then ok (IncrVersionizedValueItem t
                     (NewDefaultVersionizedValueItem key v))
          else fail err
      | (v, None) =>
          ok (IncrVersionizedValueItem t (NewDefaultVersionizedValueItem key v))
      end
  end.
Proof.
  unfold getAndIncrValueFromFinalVersionValue.
  destruct (finalVersionizedValue tbl !! keyStr); [done|].
  destruct (storage tbl key) as [v [e|]]; [|done].
  by destruct (decide (e = ErrKeyNotFound)).
Qed.

Lemma Get_result_frame y key tbl tbl2 :
  storage tbl2 = storage tbl →
  deref (Some y) tbl2 !! Hex key = deref (Some y) tbl !! Hex key →
  (finalVersionizedValue tbl2 !! Hex key = finalVersionizedValue tbl !! Hex key
   ∨ (finalVersionizedValue tbl !! Hex key = None
      ∧ ∃ v err, storage tbl key = (v, err) ∧ storeOk err
          ∧ finalVersionizedValue tbl2 !! Hex key
            = Some (NewDefaultVersionizedValueItem key v))) →
  (Get (Some y) key tbl2).1 = (Get (Some y) key tbl).1.
Proof.
  intros Hs Hd Hf.
  destruct (deref (Some y) tbl !! Hex key) as [e|] eqn:Ed.
  - by rewrite (Get_present _ _ _ e Hd), (Get_present _ _ _ e Ed).
  - destruct (Get_untouched y key tbl Ed) as [-> _].
    destruct (Get_untouched y key tbl2 Hd) as [-> _].
    rewrite !getAndIncr_result, Hs.
    destruct Hf as [->|(Hnone & v & err & Hst & Hok & ->)]; [done|].
    rewrite Hnone, Hst. destruct Hok as [->| ->]; [done|].
    by rewrite decide_True.
Qed.

(** What fetching or deriving an entry for a transaction changes. *)
Lemma fetched_frame x key tbl r :
  fetched (Some x) key tbl r →
  storage r.2 = storage tbl
  ∧ (∀ y, y ≠ x → deref (Some y) r.2 = deref (Some y) tbl)
  ∧ (finalVersionizedValue r.2 = finalVersionizedValue tbl
     ∨ (finalVersionizedValue tbl !! Hex key = None
        ∧ ∃ v err, storage tbl key = (v, err) ∧ storeOk err
            ∧ finalVersionizedValue r.2
              = <[Hex key := NewDefaultVersionizedValueItem key v]>
                  (finalVersionizedValue tbl))).
Proof.
  intros Hf. remember (Some x) as t eqn:Et.
  inversion Hf as [? Hd|f Hd Hfin|v err Hd Hfin Hs Hok
                   |v err Hd Hfin Hs Hne]; subst; cbn [snd].
  - split; [done|]. split; [done|]. by left.
  - rewrite storage_assign, storage_getVersionizedValuesOfTid.
    split; [done|]. split.
    + intros y Hy. rewrite deref_assign_ne by congruence.
      apply deref_getVersionizedValuesOfTid_any.
    + left. by rewrite final_assign_tid, final_getVersionizedValuesOfTid.
  - rewrite !storage_assign, storage_getVersionizedValuesOfTid.
    split; [done|]. split.
    + intros y Hy. rewrite !deref_assign_ne by congruence.
      apply deref_getVersionizedValuesOfTid_any.
    + right. split; [done|]. exists v, err.
      rewrite final_assign_tid, final_assign_nil,
        final_getVersionizedValuesOfTid. done.
  - rewrite storage_getVersionizedValuesOfTid.
    split; [done|]. split.
    + intros y Hy. apply deref_getVersionizedValuesOfTid_any.
    + left. apply final_getVersionizedValuesOfTid.
Qed.

Lemma accessor_frame op tbl r x key :
  accessor op tbl = Some r → opTid op = Some x → opKey op = Some key →
  storage r.2 = storage tbl
  ∧ (∀ y, y ≠ x → deref (Some y) r.2 = deref (Some y) tbl)
  ∧ (finalVersionizedValue r.2 = finalVersionizedValue tbl
     ∨ (finalVersionizedValue tbl !! Hex key = None
        ∧ ∃ v err, storage tbl key = (v, err) ∧ storeOk err
            ∧ finalVersionizedValue r.2
              = <[Hex key := NewDefaultVersionizedValueItem key v]>
                  (finalVersionizedValue tbl))).
Proof.
  intros Ha Ht Hk. apply accessor_cases in Ha as (k & Hk' & Hr).
  assert (k = key) as -> by congruence. rewrite Ht in Hr.
  pose proof (getVersionizedValueForUpdate_fetched (Some x) key tbl) as Hfe.
  apply fetched_frame in Hfe.
  destruct Hr as [->|(f & _ & ->)]; [done|]. unfold update.
  destruct (getVersionizedValueForUpdate (Some x) key tbl) as [[v|e] tbl0];
    [|done].
  cbn [snd] in *. destruct Hfe as (Hs & Hd & Hf).
  rewrite storage_assign, final_assign_tid.
  split; [done|]. split; [|done].
  intros y Hy. rewrite deref_assign_ne by congruence. by apply Hd.
Qed.

(** X4.  An accessor called for transaction [x] leaves the store and the
    map of every other transaction as they are, never changes or removes a
    final entry that exists (at most it adds the default entry of its key),
    and does not change what a [Get] of any other transaction returns for
    any key. *)
Theorem accessor_isolated op tbl r x y :
  accessor op tbl = Some r → opTid op = Some x → y ≠ x →
  storage r.2 = storage tbl
  ∧ deref (Some y) r.2 = deref (Some y) tbl
  ∧ (∀ keyStr finalValueItem,
       finalVersionizedValue tbl !! keyStr = Some finalValueItem →
       finalVersionizedValue r.2 !! keyStr = Some finalValueItem)
  ∧ (∀ key2, (Get (Some y) key2 r.2).1 = (Get (Some y) key2 tbl).1).
Proof.
  intros Ha Ht Hy.
  destruct (accessor_cases _ _ _ Ha) as (key & Hk & _).
  destruct (accessor_frame _ _ _ _ _ Ha Ht Hk) as (Hs & Hd & Hf).
  split; [done|]. split; [by apply Hd|]. split.
  - intros k f Hkf.
    destruct Hf as [->|(Hnone & v & err & _ & _ & ->)]; [done|].
    rewrite lookup_insert_ne; [done|]. congruence.
  - intros key2. apply Get_result_frame; [done|by rewrite Hd|].
    destruct Hf as [->|(Hnone & v & err & Hst & Hok & ->)]; [by left|].
    destruct (decide (Hex key = Hex key2)) as [Heq|Hne].
    + apply Hex_inj in Heq as <-. right. split; [done|].
      exists v, err. by rewrite lookup_insert_eq.
    + left. by rewrite lookup_insert_ne.
Qed.

(** ** Merges *)

Lemma deref_of_directory y tbl tbl2 :
  allVersionizedValues tbl2 = allVersionizedValues tbl →
  deref (Some y) tbl2 = deref (Some y) tbl.
Proof. simpl. by intros ->. Qed.

Lemma MergeToFinal_workspaces t tbl tids tbl' y :
  MergeToFinal t tbl = Some (ok tids, tbl') →
  deref (Some y) tbl' = deref (Some y) tbl.
Proof.
  intros Hm. apply MergeToFinal_ok in Hm as (_ & _ & Hall & _).
  rewrite (deref_of_directory _ _ _ Hall).
  apply deref_getVersionizedValuesOfTid_any.
Qed.

(** X5.  A merge that succeeds writes nothing but the final entries of the
    dirty keys of the merged map: the store, the map of every transaction,
    the final entry of every key that is not dirty in the merged map, and
    the set of keys of the final map are as before. *)
Theorem MergeToFinal_footprint t tbl tids tbl' :
  MergeToFinal t tbl = Some (ok tids, tbl') →
  storage tbl' = storage tbl
  ∧ (∀ y, deref (Some y) tbl' = deref (Some y) tbl)
  ∧ (∀ keyStr,
       (∀ value, deref t tbl !! keyStr = Some value → dirty value = false) →
       finalVersionizedValue tbl' !! keyStr
       = finalVersionizedValue tbl !! keyStr)
  ∧ (∀ keyStr, is_Some (finalVersionizedValue tbl' !! keyStr)
               ↔ is_Some (finalVersionizedValue tbl !! keyStr)).
Proof.
  intros Hm.
  pose proof (λ y, MergeToFinal_workspaces _ _ _ _ y Hm) as Hws.
  apply MergeToFinal_ok in Hm as (Hver & Hs & _ & Hfin & _).
  split; [done|]. split; [by intros y; apply Hws|]. split.
  - intros k Hk. rewrite Hfin.
    destruct (deref t tbl !! k) as [e|] eqn:Ed; [|done].
    by rewrite (Hk e eq_refl).
  - intros k. rewrite Hfin.
    destruct (deref t tbl !! k) as [e|] eqn:Ed; [|done].
    destruct (dirty e); [|done].
    destruct (Hver k e Ed) as (f & -> & _). split; by eexists.
Qed.



Lemma int_add_1_ne (v : Z) : int_add v 1 ≠ v.
Proof.
  pose proof (int_add_range v 1) as Hr.
  destruct (decide (MinInt ≤ v < MaxInt)) as [Hv|Hv].
  - rewrite int_add_1 by done. lia.
  - destruct (decide (v = MaxInt)) as [->|Hne]; [by vm_compute|].
    unfold MinInt, MaxInt in *. lia.
Qed.

(** X8.  First committer wins.  On a table the operations produced, when
    a transaction merges successfully and publishes a dirty entry for a
    key, the merge of every transaction (the same one included) whose map
    holds an entry for that key derived from the final version as it was
    before that merge is refused with the conflict error. *)
Theorem MergeToFinal_first_wins (s : Storage) (ops : list (Op T))
    tbl x tids tbl' y keyStr value valueY finalValueItem :
  run ops (NewStagingTable s) = Some tbl →
  MergeToFinal (Some x) tbl = Some (ok tids, tbl') →
  deref (Some x) tbl !! keyStr = Some value → dirty value = true →
  deref (Some y) tbl !! keyStr = Some valueY →
  finalVersionizedValue tbl !! keyStr = Some finalValueItem →
  old valueY = new finalValueItem →
  MergeToFinal (Some y) tbl'
  = Some (fail ErrStagingTableKeyConfliction, tbl').
Proof.
  intros Hrun Hm Hx Hdirty Hy Hf Hold.
  assert (Inv tbl) as HI by (eapply run_Inv; [apply Inv_new|done]).
  assert (Inv tbl') as HI' by by eapply Inv_MergeToFinal.
  apply MergeToFinal_conflict; [by apply Inv_covered|].
  exists keyStr, valueY, (CloneForFinal value).
  split; [by rewrite (MergeToFinal_workspaces _ _ _ _ y Hm)|].
  destruct (MergeToFinal_ok _ _ _ _ Hm) as (Hver & _ & _ & Hfin & _).
  split; [by rewrite Hfin, Hx, Hdirty|].
  destruct (Hver _ _ Hx) as (f & Hf' & Hox).
  assert (f = finalValueItem) as -> by congruence.
  destruct (deref_lookup_Some _ _ _ _ Hx) as (ws & Hws & He).
  simpl. rewrite (inv_incr _ HI _ _ _ _ Hws He), Hox, Hold.
  intros Heq. symmetry in Heq. by apply int_add_1_ne in Heq.
Qed.

(** X7.  A merge is not repeatable once it has published something: on a
    table the operations produced, after a successful merge of a
    transaction whose map has a dirty entry, merging that transaction
    again without a [Purge] is refused with the conflict error. *)
Theorem MergeToFinal_twice_conflicts (s : Storage) (ops : list (Op T))
    tbl x tids tbl' keyStr value :
  run ops (NewStagingTable s) = Some tbl →
  MergeToFinal (Some x) tbl = Some (ok tids, tbl') →
  deref (Some x) tbl !! keyStr = Some value → dirty value = true →
  MergeToFinal (Some x) tbl'
  = Some (fail ErrStagingTableKeyConfliction, tbl').
Proof.
  intros Hrun Hm Hx Hdirty.
  assert (Inv tbl) as HI by (eapply run_Inv; [apply Inv_new|done]).
  assert (Inv tbl') as HI' by by eapply Inv_MergeToFinal.
  apply MergeToFinal_conflict; [by apply Inv_covered|].
  exists keyStr, value, (CloneForFinal value).
  split; [by rewrite (MergeToFinal_workspaces _ _ _ _ x Hm)|].
  destruct (MergeToFinal_ok _ _ _ _ Hm) as (_ & _ & _ & Hfin & _).
  split; [by rewrite Hfin, Hx, Hdirty|].
  destruct (deref_lookup_Some _ _ _ _ Hx) as (ws & Hws & He).
  simpl. rewrite (inv_incr _ HI _ _ _ _ Hws He).
  intros Heq. symmetry in Heq. by apply int_add_1_ne in Heq.
Qed.

(** X9.  What a merge published is what transactions see next: after a
    successful merge that published a dirty entry for a key, a [Get] of a
    transaction without an entry for that key, and a [Get] of the merged
    transaction itself after its [Purge], return a clean copy of the
    published entry, with its value and deleted flag, whose old version is
    the published new version. *)
Theorem Get_after_merge x tbl tids tbl' (k : bytes) value :
  MergeToFinal (Some x) tbl = Some (ok tids, tbl') →
  deref (Some x) tbl !! Hex k = Some value → dirty value = true →
  (∀ y, deref (Some y) tbl' !! Hex k = None →
     (Get (Some y) k tbl').1
     = ok {| tid := Some y; key := key value; val := val value;
             old := new value; new := int_add (new value) 1;
             deleted := deleted value; dirty := false |})
  ∧ (Get (Some x) k (Purge (Some x) tbl')).1
    = ok {| tid := Some x; key := key value; val := val value;
            old := new value; new := int_add (new value) 1;
            deleted := deleted value; dirty := false |}.
Proof.
  intros Hm Hx Hdirty.
  destruct (MergeToFinal_ok _ _ _ _ Hm) as (_ & _ & _ & Hfin & _).
  assert (finalVersionizedValue tbl' !! Hex k = Some (CloneForFinal value))
    as Hpub by by rewrite Hfin, Hx, Hdirty.
  split.
  - intros y Hy. destruct (Get_untouched y k tbl' Hy) as [-> _].
    by rewrite getAndIncr_result, Hpub.
  - assert (deref (Some x) (Purge (Some x) tbl') !! Hex k = None) as Hgone.
    { simpl. by rewrite lookup_delete_eq. }
    destruct (Get_untouched x k _ Hgone) as [-> _].
    rewrite getAndIncr_result. simpl. by rewrite Hpub.
Qed.

(** X13.  Merging a transaction whose map is empty (one that touched
    nothing, or was purged) succeeds, returns no identifier and changes
    neither the final map, nor the store, nor the map of any transaction. *)
Theorem MergeToFinal_empty t tbl :
  (∀ keyStr, deref t tbl !! keyStr = None) →
  MergeToFinal t tbl = Some (ok [], getVersionizedValuesOfTid t tbl)
  ∧ finalVersionizedValue (getVersionizedValuesOfTid t tbl)
    = finalVersionizedValue tbl
  ∧ storage (getVersionizedValuesOfTid t tbl) = storage tbl
  ∧ (∀ y, deref (Some y) (getVersionizedValuesOfTid t tbl)
          = deref (Some y) tbl).
Proof.
  intros Hempty.
  assert (deref t tbl = ∅) as Hd by by apply map_empty.
  split.
  - unfold MergeToFinal.
    rewrite deref_getVersionizedValuesOfTid, Hd, map_to_list_empty. simpl.
    rewrite elements_empty.
    by destruct (getVersionizedValuesOfTid t tbl).
  - split; [apply final_getVersionizedValuesOfTid|].
    split; [apply storage_getVersionizedValuesOfTid|].
    intros y. apply deref_getVersionizedValuesOfTid_any.
Qed.

(** X14.  Transactions on disjoint keys do not disturb each other: when
    the maps of [x] and [y] share no key and each of the two could be
    merged into the table, then they can be merged one after the other in
    either order, each merge returns the identifiers it would have returned
    on the table itself (in some order), and both orders end in the same
    final map. *)
Theorem MergeToFinal_disjoint_commute x y tbl tidsX tblX tidsY tblY :
  (∀ keyStr, deref (Some x) tbl !! keyStr = None
             ∨ deref (Some y) tbl !! keyStr = None) →
  MergeToFinal (Some x) tbl = Some (ok tidsX, tblX) →
  MergeToFinal (Some y) tbl = Some (ok tidsY, tblY) →
  ∃ tidsY' tblXY tidsX' tblYX,
    MergeToFinal (Some y) tblX = Some (ok tidsY', tblXY)
    ∧ MergeToFinal (Some x) tblY = Some (ok tidsX', tblYX)
    ∧ tidsY' ≡ₚ tidsY ∧ tidsX' ≡ₚ tidsX
    ∧ finalVersionizedValue tblXY = finalVersionizedValue tblYX.
Proof.
  intros Hdisj Hx Hy.
  assert (∀ a b tidsA tblA tidsB tblB,
            (∀ keyStr, deref (Some a) tbl !! keyStr = None
                       ∨ deref (Some b) tbl !! keyStr = None) →
            MergeToFinal (Some a) tbl = Some (ok tidsA, tblA) →
            MergeToFinal (Some b) tbl = Some (ok tidsB, tblB) →
            ∃ tidsB' tblAB,
              MergeToFinal (Some b) tblA = Some (ok tidsB', tblAB)
              ∧ tidsB' ≡ₚ tidsB
              ∧ ∀ keyStr, finalVersionizedValue tblAB !! keyStr =
                  match deref (Some b) tbl !! keyStr with
                  | Some value =>
                      if dirty value then Some (CloneForFinal value)
                      else finalVersionizedValue tbl !! keyStr
                  | None =>
                      match deref (Some a) tbl !! keyStr with
                      | Some value =>
                          if dirty value then Some (CloneForFinal value)
                          else finalVersionizedValue tbl !! keyStr
                      | None => finalVersionizedValue tbl !! keyStr
                      end
                  end) as Hone.
  { clear. intros a b tidsA tblA tidsB tblB Hdisj Ha Hb.
    pose proof (MergeToFinal_workspaces _ _ _ _ b Ha) as Hws.
    destruct (MergeToFinal_ok _ _ _ _ Ha) as (_ & _ & _ & HfinA & _).
    destruct (MergeToFinal_ok _ _ _ _ Hb) as (HverB & _ & _ & _ & HndB & HinB).
    assert (∀ k e, deref (Some b) tbl !! k = Some e →
              finalVersionizedValue tblA !! k
              = finalVersionizedValue tbl !! k) as Hsame.
    { intros k e He. rewrite HfinA.
      destruct (Hdisj k) as [->|Hnone]; [done|congruence]. }
    destruct (MergeToFinal (Some b) tblA) as [[[tids'|err] tblAB]|] eqn:Hm.
    - exists tids', tblAB. split; [done|].
      destruct (MergeToFinal_ok _ _ _ _ Hm) as (_ & _ & _ & Hfin & Hnd & Hin).
      split.
      + apply NoDup_Permutation; [done..|].
        intros z. rewrite Hin, HinB, Hws. split.
        * intros (k & e & f & He & Hf & ?). exists k, e, f.
          by rewrite <- (Hsame k e He).
        * intros (k & e & f & He & Hf & ?). exists k, e, f.
          by rewrite (Hsame k e He).
      + intros k. rewrite Hfin, Hws, HfinA.
        destruct (deref (Some b) tbl !! k) as [e|] eqn:Eb; [|done].
        destruct (dirty e); [done|].
        destruct (Hdisj k) as [->|Hnone]; [done|congruence].
    - apply MergeToFinal_fail in Hm as (_ & _ & (k & e & f & He & Hf & Hne)).
      rewrite Hws in He. rewrite (Hsame k e He) in Hf.
      destruct (HverB k e He) as (f' & Hf' & Heq). congruence.
    - apply MergeToFinal_None in Hm. destruct Hm. intros k e He.
      rewrite Hws in He. rewrite (Hsame k e He).
      destruct (HverB k e He) as (f' & -> & _). by eexists. }
  destruct (Hone x y _ _ _ _ Hdisj Hx Hy) as (tidsY' & tblXY & HmY & HpY & HfY).
  assert (∀ keyStr, deref (Some y) tbl !! keyStr = None
                    ∨ deref (Some x) tbl !! keyStr = None) as Hdisj'.
  { intros k. destruct (Hdisj k); [by right|by left]. }
  destruct (Hone y x _ _ _ _ Hdisj' Hy Hx)
    as (tidsX' & tblYX & HmX & HpX & HfX).
  exists tidsY', tblXY, tidsX', tblYX.
  split; [done|]. split; [done|]. split; [done|]. split; [done|].
  apply map_eq. intros k. rewrite HfY, HfX.
  destruct (Hdisj k) as [Hn|Hn]; rewrite Hn; by repeat case_match.
Qed.

(** ** The shape of the entries *)

Lemma WellFormed_new s : WellFormed (NewStagingTable (T:=T) s).
Proof. split; simpl; intros *; by rewrite ?lookup_empty. Qed.

Lemma WellFormed_getVersionizedValuesOfTid t tbl :
  WellFormed tbl → WellFormed (getVersionizedValuesOfTid t tbl).
Proof.
  intros [W1 W2 W3]. destruct t as [x|]; simpl; [|done].
  destruct (allVersionizedValues tbl !! Some x) eqn:E; [done|].
  split; simpl; [by rewrite lookup_insert_ne| |done].
  intros t' ws k e. destruct (decide (Some x = t')) as [<-|Hne].
  - rewrite lookup_insert_eq. intros [= <-]. by rewrite lookup_empty.
  - rewrite lookup_insert_ne by done. eauto.
Qed.

Lemma WellFormed_assign_nil keyStr value tbl :
  WellFormed tbl → Hex (key value) = keyStr →
  (tid value = None ∧ old value = 0 ∧ new value = 0)
  ∨ new value = int_add (old value) 1 →
  WellFormed (assign None keyStr value tbl).
Proof.
  intros [W1 W2 W3] Hk Hv. split; simpl; [done..|].
  intros k f. destruct (decide (keyStr = k)) as [<-|Hne].
  - rewrite lookup_insert_eq. by intros [= <-].
  - rewrite lookup_insert_ne by done. eauto.
Qed.

Lemma WellFormed_assign_tid x keyStr value tbl :
  WellFormed tbl → tid value = Some x → Hex (key value) = keyStr →
  new value = int_add (old value) 1 →
  WellFormed (assign (Some x) keyStr value tbl).
Proof.
  intros [W1 W2 W3] Ht Hk Hv. split; simpl; [by rewrite lookup_insert_ne| |done].
  intros t' ws k e. destruct (decide (Some x = t')) as [<-|Hne].
  - rewrite lookup_insert_eq. intros [= <-].
    destruct (decide (keyStr = k)) as [<-|Hk'].
    + rewrite lookup_insert_eq. by intros [= <-].
    + rewrite lookup_insert_ne by done.
      destruct (allVersionizedValues tbl !! Some x) eqn:E; simpl; [eauto|].
      by rewrite lookup_empty.
  - rewrite lookup_insert_ne by done. eauto.
Qed.

Lemma WellFormed_assign t keyStr value tbl :
  WellFormed tbl → slotShape t keyStr value →
  WellFormed (assign t keyStr value tbl).
Proof.
  intros HW [Hk Hs]. destruct t as [x|].
  - destruct Hs. by apply WellFormed_assign_tid.
  - by apply WellFormed_assign_nil.
Qed.

Lemma slotShape_Incr t (k : bytes) (finalValueItem : VersionizedValueItem T) :
  Hex (key finalValueItem) = Hex k →
  slotShape t (Hex k) (IncrVersionizedValueItem t finalValueItem).
Proof. intros Hk. split; [done|]. destruct t; [done|by right]. Qed.

Lemma fetched_WellFormed t key tbl value tbl1 :
  WellFormed tbl → fetched t key tbl (ok value, tbl1) →
  WellFormed tbl1 ∧ slotShape t (Hex key) value.
Proof.
  intros HW Hf.
  inversion Hf as [? Hd|f Hd Hfin|v err Hd Hfin Hs Hok|]; subst.
  - split; [done|]. apply deref_lookup_Some in Hd. destruct t as [x|].
    + destruct Hd as (ws & Hws & He).
      destruct (wf_tid _ HW _ _ _ _ Hws He) as (? & ? & ?). by repeat split.
    + destruct (wf_final _ HW _ _ Hd). by split.
  - assert (slotShape t (Hex key) (IncrVersionizedValueItem t f)) as Hsh.
    { apply slotShape_Incr. by destruct (wf_final _ HW _ _ Hfin). }
    split; [|done].
    apply WellFormed_assign; [|done].
    by apply WellFormed_getVersionizedValuesOfTid.
  - assert (slotShape t (Hex key)
              (IncrVersionizedValueItem t
                 (NewDefaultVersionizedValueItem key v))) as Hsh.
    { by apply slotShape_Incr. }
    split; [|done].
    apply WellFormed_assign; [|done].
    apply WellFormed_assign_nil; [|done|by left].
    by apply WellFormed_getVersionizedValuesOfTid.
Qed.

Lemma slotShape_sameVersion t keyStr value value' :
  slotShape t keyStr value → sameVersion value' value →
  slotShape t keyStr value'.
Proof.
  intros [Hk Hs] (Ht & Hkey & Ho & Hn). unfold slotShape.
  rewrite Ht, Hkey, Ho, Hn. by split.
Qed.

Lemma WellFormed_accessor op tbl r :
  WellFormed tbl → accessor op tbl = Some r → WellFormed r.2.
Proof.
  intros HW Ha. apply accessor_cases in Ha as (key & _ & Hr).
  pose proof (getVersionizedValueForUpdate_fetched (opTid op) key tbl) as Hfe.
  assert (∀ err tbl1, fetched (opTid op) key tbl (fail err, tbl1) →
            WellFormed tbl1) as Hfail.
  { intros err tbl1 Hf. inversion Hf; subst.
    by apply WellFormed_getVersionizedValuesOfTid. }
  destruct Hr as [->|(f & Hf & ->)]; unfold Get, update;
    destruct (getVersionizedValueForUpdate (opTid op) key tbl)
      as [[v|err] tbl1]; cbn [snd]; eauto.
  - by destruct (fetched_WellFormed _ _ _ _ _ HW Hfe).
  - destruct (fetched_WellFormed _ _ _ _ _ HW Hfe) as [HW1 Hsh].
    apply WellFormed_assign; [done|]. by eapply slotShape_sameVersion.
Qed.

Lemma WellFormed_Purge t tbl : WellFormed tbl → WellFormed (Purge t tbl).
Proof.
  intros [W1 W2 W3]. destruct t as [x|]; [|done].
  split; simpl; [by rewrite lookup_delete_ne|  |done].
  intros t' ws k e Hws. apply lookup_delete_Some in Hws as [_ Hws]. eauto.
Qed.

Lemma WellFormed_MergeToFinal t tbl r tbl' :
  WellFormed tbl → MergeToFinal t tbl = Some (r, tbl') → WellFormed tbl'.
Proof.
  intros HW Hm. destruct r as [tids|err];
    [|by apply MergeToFinal_fail in Hm as (_ & -> & _)].
  apply MergeToFinal_ok in Hm as (_ & _ & Hall & Hfin & _).
  destruct (WellFormed_getVersionizedValuesOfTid t _ HW) as [W1 W2 _].
  split; [by rewrite Hall|intros ????; rewrite Hall; eauto|].
  intros k f. rewrite Hfin.
  destruct (deref t tbl !! k) as [e|] eqn:Ed; [|by apply wf_final].
  destruct (dirty e); [|by apply wf_final].
  intros [= <-]. simpl. apply deref_lookup_Some in Ed. destruct t as [x|].
  - destruct Ed as (ws & Hws & He).
    destruct (wf_tid _ HW _ _ _ _ Hws He) as (_ & ? & ?). split; [done|by right].
  - apply (wf_final _ HW _ _ Ed).
Qed.

Lemma step_accessor op tbl :
  step op tbl = snd <$> accessor op tbl
  ∨ (∃ t, op = OpPurge t) ∨ (∃ t, op = OpMergeToFinal t).
Proof. destruct op; simpl; eauto. Qed.

Lemma WellFormed_step op tbl tbl' :
  WellFormed tbl → step op tbl = Some tbl' → WellFormed tbl'.
Proof.
  intros HW Hs. destruct (step_accessor op tbl) as [Ha|[[t ->]|[t ->]]].
  - rewrite Ha in Hs. destruct (accessor op tbl) as [r|] eqn:Hr; [|done].
    injection Hs as <-. by eapply WellFormed_accessor.
  - injection Hs as <-. by apply WellFormed_Purge.
  - simpl in Hs. destruct (MergeToFinal t tbl) as [[r tbl1]|] eqn:Hm; [|done].
    injection Hs as <-. by eapply WellFormed_MergeToFinal.
Qed.

Lemma run_WellFormed ops tbl tbl' :
  WellFormed tbl → run ops tbl = Some tbl' → WellFormed tbl'.
Proof.
  revert tbl. induction ops as [|op ops IH]; intros tbl HW; simpl.
  - by intros [= <-].
  - destruct (step op tbl) as [tbl1|] eqn:Hs; [|done].
    apply IH. by eapply WellFormed_step.
Qed.

(** X10.  On every table a sequence of calls produces: the directory holds
    no map under nil; every entry of the map of a transaction is owned by
    that transaction, sits under the hexadecimal form of its own key, and
    has as new version its old version plus one (as [int] addition); every
    final entry sits under the hexadecimal form of its own key and is
    either unowned at versions 0 and 0, or has as new version its old
    version plus one. *)
Theorem entries_well_formed (s : Storage) (ops : list (Op T)) tbl :
  run ops (NewStagingTable s) = Some tbl →
  allVersionizedValues tbl !! None = None
  ∧ (∀ x keyStr value, deref (Some x) tbl !! keyStr = Some value →
       tid value = Some x ∧ Hex (key value) = keyStr
       ∧ new value = int_add (old value) 1)
  ∧ (∀ keyStr finalValueItem,
       finalVersionizedValue tbl !! keyStr = Some finalValueItem →
       Hex (key finalValueItem) = keyStr
       ∧ ((tid finalValueItem = None ∧ old finalValueItem = 0
           ∧ new finalValueItem = 0)
          ∨ new finalValueItem = int_add (old finalValueItem) 1)).
Proof.
  intros Hrun.
  pose proof (run_WellFormed _ _ _ (WellFormed_new s) Hrun) as HW.
  split; [apply HW|]. split; [|apply HW].
  intros x k e He. apply deref_lookup_Some in He as (ws & Hws & He).
  by eapply wf_tid.
Qed.

(** X12.  Merging with the nil identifier merges the final map into
    itself.  On every table a sequence of calls produces it never changes
    the table: either some final entry has left versions 0 and 0 (its old
    and new version differ) and the call is refused with the conflict
    error, or every final entry is unowned at versions 0 and 0 and the call
    succeeds, returning no identifier. *)
Theorem MergeToFinal_nil (s : Storage) (ops : list (Op T)) tbl :
  run ops (NewStagingTable s) = Some tbl →
  (MergeToFinal None tbl = Some (fail ErrStagingTableKeyConfliction, tbl)
   ∧ ∃ keyStr finalValueItem,
       finalVersionizedValue tbl !! keyStr = Some finalValueItem
       ∧ old finalValueItem ≠ new finalValueItem)
  ∨ (MergeToFinal None tbl = Some (ok [], tbl)
     ∧ ∀ keyStr finalValueItem,
         finalVersionizedValue tbl !! keyStr = Some finalValueItem →
         tid finalValueItem = None ∧ old finalValueItem = 0
         ∧ new finalValueItem = 0).
Proof.
  intros Hrun.
  pose proof (run_WellFormed _ _ _ (WellFormed_new s) Hrun) as HW.
  destruct (MergeToFinal None tbl) as [[[tids|err] tbl']|] eqn:Hm.
  - right.
    destruct (MergeToFinal_ok _ _ _ _ Hm) as (Hver & Hs & Hall & Hfin & _ & Hin).
    simpl in Hver, Hfin, Hall, Hin.
    assert (∀ k f, finalVersionizedValue tbl !! k = Some f →
              tid f = None ∧ old f = 0 ∧ new f = 0) as Hzero.
    { intros k f Hf. destruct (Hver k f Hf) as (f' & Hf' & Heq).
      assert (f' = f) as -> by congruence.
      destruct (wf_final _ HW _ _ Hf) as [_ [?|Hn]]; [done|].
      rewrite <- Heq in Hn. symmetry in Hn. by apply int_add_1_ne in Hn. }
    split; [|done].
    assert (tids = []) as ->.
    { destruct tids as [|z tids]; [done|]. exfalso.
      destruct (proj1 (Hin z)) as (k & e & f & _ & Hf & Hd & _); [by left|].
      destruct (Hzero k f Hf) as (Ht & Ho & Hn).
      unfold isDefault in Hd. by rewrite Ht, Ho, Hn in Hd. }
    assert (finalVersionizedValue tbl' = finalVersionizedValue tbl) as Hf.
    { apply map_eq. intros k. rewrite Hfin.
      destruct (finalVersionizedValue tbl !! k) as [e|] eqn:Ee; [|done].
      destruct (dirty e) eqn:Ed; [|done].
      f_equal. destruct e. simpl in Ed. by subst. }
    destruct tbl', tbl. simpl in *. by subst.
  - left. apply MergeToFinal_fail in Hm as (-> & -> & (k & e & f & He & Hf & Hne)).
    split; [done|]. simpl in He. assert (e = f) as -> by congruence.
    by exists k, f.
  - apply MergeToFinal_None in Hm. destruct Hm. by intros k e He.
Qed.

(** ** The store is read for missing final entries only *)

Lemma deref_withStorage s t tbl : deref t (withStorage s tbl) = deref t tbl.
Proof. by destruct t. Qed.

Lemma getVersionizedValuesOfTid_withStorage s t tbl :
  getVersionizedValuesOfTid t (withStorage s tbl)
  = withStorage s (getVersionizedValuesOfTid t tbl).
Proof.
  destruct t as [x|]; simpl; [|done].
  by destruct (allVersionizedValues tbl !! Some x).
Qed.

Lemma assign_withStorage s t keyStr value tbl :
  assign t keyStr value (withStorage s tbl)
  = withStorage s (assign t keyStr value tbl).
Proof. by destruct t. Qed.

Lemma getVersionizedValueForUpdate_cached s t key tbl :
  is_Some (finalVersionizedValue tbl !! Hex key) →
  getVersionizedValueForUpdate t key (withStorage s tbl)
  = ((getVersionizedValueForUpdate t key tbl).1,
     withStorage s (getVersionizedValueForUpdate t key tbl).2).
Proof.
  intros [f0 Hf0].
  pose proof (getVersionizedValueForUpdate_fetched t key tbl) as Hfe.
  apply (fetched_fun t key (withStorage s tbl));
    [apply getVersionizedValueForUpdate_fetched|].
  inversion Hfe as [v Hd Heq|f Hd Hfin Heq|v err Hd Hfin|v err Hd Hfin];
    try congruence; cbn [fst snd].
  - constructor. by rewrite deref_withStorage.
  - rewrite <- assign_withStorage, <- getVersionizedValuesOfTid_withStorage.
    constructor; [by rewrite deref_withStorage|done].
Qed.

(** X11.  The store is consulted only for a key that has no final entry:
    when the key of an accessor call has a final entry, the call returns
    the same result and leaves the same maps whatever store is behind the
    table. *)
Theorem accessor_ignores_store s op tbl r key :
  accessor op tbl = Some r → opKey op = Some key →
  is_Some (finalVersionizedValue tbl !! Hex key) →
  accessor op (withStorage s tbl) = Some (r.1, withStorage s r.2).
Proof.
  intros Ha Hk Hf.
  assert (∀ f t, update f t key (withStorage s tbl)
                 = ((update f t key tbl).1,
                    withStorage s (update f t key tbl).2)) as Hupd.
  { intros f t. unfold update.
    rewrite getVersionizedValueForUpdate_cached by done.
    destruct (getVersionizedValueForUpdate t key tbl) as [[v|e] tbl0];
      cbn [fst snd]; [|done].
    by rewrite assign_withStorage. }
  destruct op as [t k|t k v|t k v dl dr|t k|t|t]; simpl in *; try done;
    injection Hk as ->; injection Ha as <-; f_equal.
  - by apply getVersionizedValueForUpdate_cached.
  - rewrite !Put_update. apply Hupd.
  - rewrite !Set_update. apply Hupd.
  - rewrite !Del_update. apply Hupd.
Qed.

End MoreProperties.

(** * The further properties on concrete tables *)

Lemma Set_overwrites_witness :
  Get (Some 1%nat) kA (Set_ (Some 1%nat) kA vOne true false tblNew).2
  = (ok {| tid := Some 1%nat; key := kA; val := vOne; old := 0; new := 1;
           deleted := true; dirty := false |},
     (Set_ (Some 1%nat) kA vOne true false tblNew).2).
Proof.
  assert (Set_ (Some 1%nat) kA vOne true false tblNew
          = (ok {| tid := Some 1%nat; key := kA; val := vOne; old := 0;
                   new := 1; deleted := true; dirty := false |},
             (Set_ (Some 1%nat) kA vOne true false tblNew).2)) as Heq
    by (vm_compute; reflexivity).
  exact (proj2 (proj2 (proj2 (proj2 (proj2
           (Set_overwrites _ _ _ _ _ _ _ _ Heq)))))).
Defined.

Lemma Del_marks_witness :
  Get (Some 2%nat) kA (Del (Some 2%nat) kA tblPut).2
  = (ok {| tid := Some 2%nat; key := kA; val := vOne; old := 0; new := 1;
           deleted := true; dirty := true |},
     (Del (Some 2%nat) kA tblPut).2).
Proof.
  assert (Del (Some 2%nat) kA tblPut
          = (ok {| tid := Some 2%nat; key := kA; val := vOne; old := 0;
                   new := 1; deleted := true; dirty := true |},
             (Del (Some 2%nat) kA tblPut).2)) as Heq
    by (vm_compute; reflexivity).
  exact (proj2 (proj2 (proj2 (Del_marks _ _ _ _ _ Heq)))).
Defined.

Lemma accessor_then_Get_witness :
  Get (Some 2%nat) kA tblPut = (ok itemPut, tblPut).
Proof.
  apply (accessor_then_Get (OpPut (Some 2%nat) kA vOne) tblNew itemPut
           tblPut kA).
  - vm_compute. reflexivity.
  - reflexivity.
Defined.

Lemma accessor_isolated_witness :
  (Get (Some 1%nat) kA tblPut).1 = (Get (Some 1%nat) kA tblNew).1.
Proof.
  refine (proj2 (proj2 (proj2
            (accessor_isolated (OpPut (Some 2%nat) kA vOne) tblNew
               (Put (Some 2%nat) kA vOne tblNew) 2%nat 1%nat _ _ _))) kA).
  - reflexivity.
  - reflexivity.
  - discriminate.
Defined.

Lemma MergeToFinal_footprint_witness :
  deref (Some 2%nat) tblMerged = deref (Some 2%nat) tblPut.
Proof.
  refine (proj1 (proj2
            (MergeToFinal_footprint (Some 2%nat) tblPut [] tblMerged _))
            2%nat).
  vm_compute. reflexivity.
Defined.


Lemma MergeToFinal_twice_conflicts_witness :
  MergeToFinal (Some 2%nat) tblMerged
  = Some (fail ErrStagingTableKeyConfliction, tblMerged).
Proof.
  apply (MergeToFinal_twice_conflicts emptyStore opsPut tblPut 2%nat []
           tblMerged (Hex kA) itemPut).
  - vm_compute. reflexivity.
  - vm_compute. reflexivity.
  - vm_compute. reflexivity.
  - reflexivity.
Defined.

Lemma MergeToFinal_first_wins_witness :
  MergeToFinal (Some 1%nat) (afterMerge (Some 2%nat) tblBoth)
  = Some (fail ErrStagingTableKeyConfliction, afterMerge (Some 2%nat) tblBoth).
Proof.
  apply (MergeToFinal_first_wins emptyStore
           [OpGet (Some 1%nat) kA; OpPut (Some 2%nat) kA vOne]
           tblBoth 2%nat [] (afterMerge (Some 2%nat) tblBoth) 1%nat (Hex kA)
           itemPut
           {| tid := Some 1%nat; key := kA; val := []; old := 0; new := 1;
              deleted := false; dirty := false |}
           (NewDefaultVersionizedValueItem kA [])).
  - vm_compute. reflexivity.
  - vm_compute. reflexivity.
  - vm_compute. reflexivity.
  - reflexivity.
  - vm_compute. reflexivity.
  - vm_compute. reflexivity.
  - reflexivity.
Defined.

Lemma Get_after_merge_witness :
  (Get (Some 2%nat) kA (Purge (Some 2%nat) tblMerged)).1
  = ok {| tid := Some 2%nat; key := kA; val := vOne; old := 1;
          new := int_add 1 1; deleted := false; dirty := false |}.
Proof.
  refine (proj2 (Get_after_merge 2%nat tblPut [] tblMerged kA itemPut _ _ _)).
  - vm_compute. reflexivity.
  - vm_compute. reflexivity.
  - reflexivity.
Defined.

Lemma entries_well_formed_witness :
  allVersionizedValues tblAB !! None = None.
Proof.
  refine (proj1 (entries_well_formed emptyStore opsAB tblAB _)).
  vm_compute. reflexivity.
Defined.

Lemma accessor_ignores_store_witness :
  accessor (OpGet (Some 1%nat) kA) (withStorage brokenStore tblMerged)
  = Some ((Get (Some 1%nat) kA tblMerged).1,
          withStorage brokenStore (Get (Some 1%nat) kA tblMerged).2).
Proof.
  apply (accessor_ignores_store brokenStore (OpGet (Some 1%nat) kA) tblMerged
           (Get (Some 1%nat) kA tblMerged) kA).
  - reflexivity.
  - reflexivity.
  - vm_compute. eexists. reflexivity.
Defined.

Lemma MergeToFinal_nil_witness :
  (MergeToFinal None tblMerged
   = Some (fail ErrStagingTableKeyConfliction, tblMerged)
   ∧ ∃ keyStr finalValueItem,
       finalVersionizedValue tblMerged !! keyStr = Some finalValueItem
       ∧ old finalValueItem ≠ new finalValueItem)
  ∨ (MergeToFinal None tblMerged = Some (ok [], tblMerged)
     ∧ ∀ keyStr finalValueItem,
         finalVersionizedValue tblMerged !! keyStr = Some finalValueItem →
         tid finalValueItem = None ∧ old finalValueItem = 0
         ∧ new finalValueItem = 0).
Proof.
  apply (MergeToFinal_nil emptyStore
           (opsPut ++ [OpMergeToFinal (Some 2%nat)]) tblMerged).
  vm_compute. reflexivity.
Defined.

Lemma MergeToFinal_empty_witness :
  MergeToFinal (Some 1%nat) tblPut
  = Some (ok [], getVersionizedValuesOfTid (Some 1%nat) tblPut).
Proof.
  refine (proj1 (MergeToFinal_empty (Some 1%nat) tblPut _)).
  intros keyStr.
  change (deref (Some 1%nat) tblPut) with
    (∅ : gmap string (VersionizedValueItem nat)).
  apply lookup_empty.
Defined.

Lemma MergeToFinal_disjoint_commute_witness :
  ∃ tidsY' tblXY tidsX' tblYX,
    MergeToFinal (Some 2%nat) (afterMerge (Some 1%nat) tblDisjoint)
    = Some (ok tidsY', tblXY)
    ∧ MergeToFinal (Some 1%nat) (afterMerge (Some 2%nat) tblDisjoint)
      = Some (ok tidsX', tblYX)
    ∧ tidsY' ≡ₚ [] ∧ tidsX' ≡ₚ []
    ∧ finalVersionizedValue tblXY = finalVersionizedValue tblYX.
Proof.
  apply (MergeToFinal_disjoint_commute 1%nat 2%nat tblDisjoint
           [] (afterMerge (Some 1%nat) tblDisjoint)
           [] (afterMerge (Some 2%nat) tblDisjoint)).
  - intros keyStr.
    change (deref (Some 1%nat) tblDisjoint) with
      ({[Hex kA := {| tid := Some 1%nat; key := kA; val := vOne; old := 0;
                      new := 1; deleted := false; dirty := true |}]}
       : gmap string (VersionizedValueItem nat)).
    change (deref (Some 2%nat) tblDisjoint) with
      ({[Hex kB := {| tid := Some 2%nat; key := kB; val := vOne; old := 0;
                      new := 1; deleted := false; dirty := true |}]}
       : gmap string (VersionizedValueItem nat)).
    destruct (decide (keyStr = Hex kA)) as [->|Hne].
    + right. reflexivity.
    + left. by apply lookup_singleton_ne.
  - vm_compute. reflexivity.
  - vm_compute. reflexivity.
Defined.
